(** * jsf-convert: a shallow embedding of [backend/converter.py]

    The converter reads a file, copies it through when it already is a PDF,
    and otherwise decodes it to text, hard-wraps the text and draws the
    wrapped lines on letter-size pages.

    Conventions of the embedding:
    - a Python [str] is a list of code points ([N]); a [bytes] object is a
      list of [byte];
    - a Python [int] is a [Z]; the page coordinates are Python floats whose
      values are all integers of small magnitude (612.0, 792.0 and
      differences of multiples of 14), so they are carried as [Z] exactly;
    - a generator is a state machine with a [next] function;
    - file-system effects are threaded through a state-and-exception monad
      over a [world];
    - what the source takes from libraries outside the repository and whose
      exact output is immaterial here (codecs other than Latin-1, path
      resolution, the PDF serialiser, the wording of library errors) is an
      interface, [Runtime];
    - the file system is a tree of directories and regular files. *)

From Stdlib Require Import ZArith NArith Lia.
From Stdlib Require Import Init.Byte.
From Stdlib Require Import Strings.String Strings.Ascii.
From stdpp Require Import base option list gmap.

Local Open Scope Z_scope.

(* ================================================================= *)
(** ** Python values *)

(** [str]: a sequence of Unicode code points. *)
Definition str : Type := list N.

(** [bytes]. *)
Definition bytes : Type := list byte.

(** A string literal of the source, as a [str]. *)
Definition lit (s : string) : str :=
  map (fun a : ascii => N_of_ascii a) (list_ascii_of_string s).

(** [len(s)]. *)
Definition len {A} (s : list A) : Z := Z.of_nat (length s).

(** A slice bound brought into [0 .. n] the way Python does for [s[a:b]]:
    a negative bound counts from the end, and every bound is clamped. *)
Definition clamp_index (n i : Z) : Z :=
  if i <? 0 then Z.max 0 (i + n) else Z.min i n.

(** [s[start:stop]]. *)
Definition slice {A} (s : list A) (start stop : Z) : list A :=
  let a := clamp_index (len s) start in
  let b := clamp_index (len s) stop in
  take (Z.to_nat (b - a)) (drop (Z.to_nat a) s).

(** The characters [str.splitlines] treats as line boundaries:
    LF, VT, FF, CR, FS, GS, RS, NEL, LS and PS. *)
Definition is_linebreak (c : N) : bool :=
  (((10 <=? c) && (c <=? 13)) || ((28 <=? c) && (c <=? 30))
   || (c =? 133) || (c =? 8232) || (c =? 8233))%N.

(** [str.splitlines()], with [cur] the line read so far.  A line ends at a
    boundary, CR LF counting as one; the boundary is dropped; text after the
    last boundary is a line when it is not empty. *)
Fixpoint splitlines_from (cur : str) (s : str) : list str :=
  match s with
  | [] => match cur with [] => [] | _ => [cur] end
  | c :: rest =>
      if is_linebreak c then
        cur :: match rest with
               | c' :: rest' =>
                   if ((c =? 13) && (c' =? 10))%N
                   then splitlines_from [] rest'
                   else splitlines_from [] rest
               | [] => splitlines_from [] rest
               end
      else splitlines_from (cur ++ [c]) rest
  end.

Definition splitlines (s : str) : list str := splitlines_from [] s.

(** [bytes.startswith(prefix)]. *)
Fixpoint startswith (data prefix : bytes) : bool :=
  match prefix with
  | [] => true
  | p :: prefix' =>
      match data with
      | [] => false
      | d :: data' => Byte.eqb d p && startswith data' prefix'
      end
  end.

(* ================================================================= *)
(** ** [wrap_lines]: the generator *)

Definition MARGIN : Z := 72.
Definition LINE_HEIGHT : Z := 14.

(** The frame of a suspended [wrap_lines]: its argument [max_chars], the
    source lines the [for] loop has not reached yet, and, while the [while]
    loop is running, the line being sliced with the value of [start]. *)
Record generator := Generator {
  gen_max_chars : Z;
  gen_lines : list str;
  gen_while : option (str * Z)
}.

(** [text.splitlines() or [""]]: an empty list is falsy. *)
Definition source_lines (text : str) : list str :=
  match splitlines text with
  | [] => [[]]
  | ls => ls
  end.

(** Calling [wrap_lines(text, max_chars)] runs nothing yet. *)
Definition wrap_lines (text : str) (max_chars : Z) : generator :=
  Generator max_chars (source_lines text) None.

(** One turn of [while start < len(line)]: the segment yielded and the new
    [start], or [None] when the loop is left. *)
Definition while_turn (max_chars : Z) (line : str) (start : Z) : option (str * Z) :=
  if start <? len line
  then Some (slice line start (start + max_chars), start + max_chars)
  else None.

(** The [for] loop resumed at its head: run to the next [yield]. *)
Fixpoint next_from_lines (max_chars : Z) (lines : list str) : option (str * generator) :=
  match lines with
  | [] => None
  | line :: rest =>
      if len line <=? max_chars then
        Some (line, Generator max_chars rest None)
      else
        match while_turn max_chars line 0 with
        | Some (seg, start) => Some (seg, Generator max_chars rest (Some (line, start)))
        | None => next_from_lines max_chars rest
        end
  end.

(** [next(g)]: the segment yielded and the generator after it, or [None]
    for [StopIteration]. *)
Definition next (g : generator) : option (str * generator) :=
  match gen_while g with
  | Some (line, start) =>
      match while_turn (gen_max_chars g) line start with
      | Some (seg, start') =>
          Some (seg, Generator (gen_max_chars g) (gen_lines g) (Some (line, start')))
      | None => next_from_lines (gen_max_chars g) (gen_lines g)
      end
  | None => next_from_lines (gen_max_chars g) (gen_lines g)
  end.

(** The first [n] segments [g] yields (fewer when it stops before). *)
Fixpoint take_yields (n : nat) (g : generator) : list str :=
  match n with
  | O => []
  | S n' =>
      match next g with
      | None => []
      | Some (seg, g') => seg :: take_yields n' g'
      end
  end.

(** [list(g)] with at most [fuel] calls of [next]: [None] when the
    generator has not stopped by then. *)
Fixpoint list_gen (fuel : nat) (g : generator) : option (list str) :=
  match fuel with
  | O => None
  | S fuel' =>
      match next g with
      | None => Some []
      | Some (seg, g') =>
          match list_gen fuel' g' with
          | Some segs => Some (seg :: segs)
          | None => None
          end
      end
  end.

(** The generator is exhausted after finitely many segments. *)
Definition finite (g : generator) : Prop :=
  exists fuel segs, list_gen fuel g = Some segs.

(** What is left for the generator to go through: one per pending line and
    per character of it, and the characters of the line being sliced from
    [start] on. *)
Definition lines_size (lines : list str) : nat :=
  foldr (fun line acc => S (length line + acc)) O lines.

Definition gen_size (g : generator) : nat :=
  (lines_size (gen_lines g)
   + match gen_while g with
     | Some (line, start) => Z.to_nat (len line - start)
     | None => O
     end)%nat.

(** The number of [next] calls that exhausts a generator whose width is at
    least 1 (see [list_gen_budget]). *)
Definition gen_budget (g : generator) : nat := S (gen_size g).

(** The segments a [for] loop over [g] goes through. *)
Definition segments (g : generator) : list str := take_yields (gen_budget g) g.

(** Fixed-width chunking, as the specification words it: consecutive
    chunks of exactly [w] characters, the last one possibly shorter. *)
Fixpoint chunks_fuel (fuel w : nat) (l : str) : list str :=
  match fuel with
  | O => []
  | S fuel' =>
      match l with
      | [] => []
      | _ => take w l :: chunks_fuel fuel' w (drop w l)
      end
  end.

Definition chunks (w : nat) (l : str) : list str := chunks_fuel (length l) w l.

(** The segments of one source line, as the specification words them: the
    line unchanged when it is within the width, its chunks otherwise. *)
Definition line_segments (max_chars : Z) (line : str) : list str :=
  if len line <=? max_chars then [line] else chunks (Z.to_nat max_chars) line.

(** A run of the generator to its end, with the segments it yields. *)
Inductive drains : generator -> list str -> Prop :=
| drains_stop g : next g = None -> drains g []
| drains_yield g seg g' segs :
    next g = Some (seg, g') -> drains g' segs -> drains g (seg :: segs).

(* ================================================================= *)
(** ** Paths, the canvas and the world *)

(** A resolved absolute path, by its components ([PurePath.parts] without
    the root). *)
Definition path : Type := list str.

(** [str(p)]. *)
Definition path_str (p : path) : str :=
  match p with
  | [] => lit "/"
  | _ => concat (map (fun part => lit "/" ++ part) p)
  end.

(** [p.name]: the final component, empty for the root. *)
Definition path_name (p : path) : str := List.last p [].

(** [p.parent]; the root is its own parent. *)
Definition path_parent (p : path) : path := removelast p.

(** Modelled from the spec: [LETTER] is imported from
    [reportlab.lib.pagesizes], which is no part of the repository; the
    specification fixes the page at 8.5 by 11 inches in points, 72 to the
    inch. *)
Definition LETTER : Z * Z := (612, 792).

(** The methods [convert] calls on its canvas. *)
Inductive canvas_call :=
| SetFont (name : str) (size : Z)
| DrawString (x y : Z) (text : str)
| ShowPage.

(** A [canvas.Canvas]: the file it will be saved to, its page size and the
    calls made on it so far, oldest first. *)
Record Canvas := mkCanvas {
  canvas_filename : path;
  canvas_pagesize : Z * Z;
  canvas_calls : list canvas_call
}.

Definition Canvas_new (filename : path) (pagesize : Z * Z) : Canvas :=
  mkCanvas filename pagesize [].

Definition call (c : canvas_call) (doc : Canvas) : Canvas :=
  mkCanvas (canvas_filename doc) (canvas_pagesize doc) (canvas_calls doc ++ [c]).

Definition setFont (doc : Canvas) (name : str) (size : Z) : Canvas :=
  call (SetFont name size) doc.
Definition drawString (doc : Canvas) (x y : Z) (text : str) : Canvas :=
  call (DrawString x y text) doc.
Definition showPage (doc : Canvas) : Canvas := call ShowPage doc.

(** The strings drawn on each page of the saved document, with their
    positions: [showPage] closes a page, and [save] closes the page that is
    open when it has anything on it. *)
Fixpoint pages_from (cur : list (Z * Z * str)) (nonempty : bool)
    (calls : list canvas_call) : list (list (Z * Z * str)) :=
  match calls with
  | [] => if nonempty then [cur] else []
  | SetFont _ _ :: rest => pages_from cur true rest
  | DrawString x y text :: rest => pages_from (cur ++ [(x, y, text)]) true rest
  | ShowPage :: rest => cur :: pages_from [] false rest
  end.

Definition pages (doc : Canvas) : list (list (Z * Z * str)) :=
  pages_from [] false (canvas_calls doc).

(** Exceptions that reach [main], with [str(exc)]. *)
Inductive exn :=
| FileNotFoundError (msg : str)
| SameFileError (msg : str)
| FileExistsError (msg : str)
| NotADirectoryError (msg : str)
| IsADirectoryError (msg : str)
| RuntimeError (msg : str).

Definition exn_str (e : exn) : str :=
  match e with
  | FileNotFoundError msg => msg
  | SameFileError msg => msg
  | FileExistsError msg => msg
  | NotADirectoryError msg => msg
  | IsADirectoryError msg => msg
  | RuntimeError msg => msg
  end.

(** The ways a call on the file tree fails: nothing at the path, something
    already there, a regular file where a directory is needed, a directory
    where a regular file is needed. *)
Inductive errno := ENOENT | EEXIST | ENOTDIR | EISDIR.

(** An entry of a directory: a regular file with its bytes, or a directory
    with its own entries by name. *)
#[local] Unset Elimination Schemes.
Inductive node :=
| File (data : bytes)
| Dir (children : gmap str node).
#[local] Set Elimination Schemes.

(** What is at path [p] below the directory whose entries are [ch]; the
    empty path is that directory itself. *)
Fixpoint find_entry (ch : gmap str node) (p : path) : node + errno :=
  match p with
  | [] => inl (Dir ch)
  | name :: p' =>
      match ch !! name with
      | None => inr ENOENT
      | Some (File data) => match p' with [] => inl (File data) | _ => inr ENOTDIR end
      | Some (Dir ch') => find_entry ch' p'
      end
  end.

(** [os.makedirs]-like creation, as [mkdir(parents=True, exist_ok=True)]
    does it: directories on the way are kept, missing ones are made, and a
    regular file on the way stops it, with [EEXIST] when it is at [p]
    itself and [ENOTDIR] when it is above. *)
Fixpoint make_dirs (ch : gmap str node) (p : path) : gmap str node + errno :=
  match p with
  | [] => inl ch
  | name :: p' =>
      match ch !! name with
      | Some (File _) => inr (match p' with [] => EEXIST | _ => ENOTDIR end)
      | Some (Dir ch') =>
          match make_dirs ch' p' with
          | inl r => inl (<[name := Dir r]> ch)
          | inr e => inr e
          end
      | None =>
          match make_dirs ∅ p' with
          | inl r => inl (<[name := Dir r]> ch)
          | inr e => inr e
          end
      end
  end.

(** [open(p, "wb")], the write and the close: the file is made or replaced
    in a directory that is there; a directory at [p] cannot be opened for
    writing. *)
Fixpoint write_entry (ch : gmap str node) (p : path) (data : bytes)
    : gmap str node + errno :=
  match p with
  | [] => inr EISDIR
  | name :: p' =>
      match p' with
      | [] =>
          match ch !! name with
          | Some (Dir _) => inr EISDIR
          | _ => inl (<[name := File data]> ch)
          end
      | _ =>
          match ch !! name with
          | None => inr ENOENT
          | Some (File _) => inr ENOTDIR
          | Some (Dir ch') =>
              match write_entry ch' p' data with
              | inl r => inl (<[name := Dir r]> ch)
              | inr e => inr e
              end
          end
      end
  end.

(** Accesses to the file system, in the order they happen. *)
Inductive event :=
| EvResolve (arg : str)
| EvExists (p : path)
| EvReadBytes (p : path)
| EvMkdir (p : path)
| EvCopyFile (src dst : path)
| EvSave (p : path).

(** The entries of the root directory, what was printed to the error
    stream and the accesses made.  Failures the file tree does not decide
    (permissions, a full disk, special files, links) are outside the
    model. *)
Record world := mkWorld {
  root : gmap str node;
  stderr : list str;
  trace : list event
}.

(** What the source takes from outside the repository. *)
Class Runtime := {
  (** [data.decode("utf-8-sig")], [None] for [UnicodeDecodeError] *)
  decode_utf_8_sig : bytes -> option str;
  (** [data.decode("utf-16")], [None] for [UnicodeDecodeError] *)
  decode_utf_16 : bytes -> option str;
  (** [data.decode("utf-8", errors="ignore")] *)
  decode_utf_8_ignore : bytes -> str;
  (** [Path(arg).expanduser().resolve()], [None] for the [RuntimeError] of
      a home directory that cannot be determined or of a loop of links *)
  resolve : str -> option path;
  (** the message of that [RuntimeError] *)
  resolve_error_message : str -> str;
  (** the bytes [doc.save()] writes *)
  pdf_bytes : Canvas -> bytes;
  (** the message of the [OSError] raised for a failed call on a path *)
  os_error_message : errno -> path -> str;
  (** the message of [shutil.SameFileError] *)
  same_file_message : path -> path -> str
}.

(** [data.decode("latin-1")]: byte [b] is code point [b]. *)
Definition decode_latin_1 (data : bytes) : str := map Byte.to_N data.

(* ================================================================= *)
(** ** The state-and-exception monad *)

Inductive outcome (A : Type) :=
| Return (a : A)
| Raise (e : exn).
Arguments Return {A} a.
Arguments Raise {A} e.

Definition M (A : Type) : Type := world -> outcome A * world.

Definition ret {A} (a : A) : M A := fun w => (Return a, w).
Definition raise {A} (e : exn) : M A := fun w => (Raise e, w).
Definition bind {A B} (m : M A) (k : A -> M B) : M B :=
  fun w =>
    match m w with
    | (Return a, w') => k a w'
    | (Raise e, w') => (Raise e, w')
    end.

(** [try: m  except Exception as exc: h exc]. *)
Definition try_except {A} (m : M A) (h : exn -> M A) : M A :=
  fun w =>
    match m w with
    | (Return a, w') => (Return a, w')
    | (Raise e, w') => h e w'
    end.

Notation "'do' x <- m ; k" := (bind m (fun x => k))
  (at level 10, x name, m at level 100, k at level 200).
Notation "'run' m ; k" := (bind m (fun _ => k))
  (at level 10, m at level 100, k at level 200).

Definition log (ev : event) : M unit :=
  fun w => (Return tt, mkWorld (root w) (stderr w) (trace w ++ [ev])).

(** [print(msg, file=sys.stderr)]. *)
Definition eprint (msg : str) : M unit :=
  fun w => (Return tt, mkWorld (root w) (stderr w ++ [msg]) (trace w)).

(** A call on the file tree: its answer, or the tree it leaves, or the way
    it fails, which leaves the tree as it was. *)
Definition ask {A} (f : gmap str node -> A) : M A :=
  fun w => (Return (f (root w)), w).
Definition set_root (r : gmap str node) : M unit :=
  fun w => (Return tt, mkWorld r (stderr w) (trace w)).

(* ================================================================= *)
(** ** File-system operations *)

Section Program.
Context {rt : Runtime}.

(** The [OSError] subclass Python raises for each way of failing. *)
Definition os_error (e : errno) (p : path) : exn :=
  match e with
  | ENOENT => FileNotFoundError (os_error_message e p)
  | EEXIST => FileExistsError (os_error_message e p)
  | ENOTDIR => NotADirectoryError (os_error_message e p)
  | EISDIR => IsADirectoryError (os_error_message e p)
  end.

(** [Path(arg).expanduser().resolve()]. *)
Definition resolve_path (arg : str) : M path :=
  run log (EvResolve arg);
  match resolve arg with
  | Some p => ret p
  | None => raise (RuntimeError (resolve_error_message arg))
  end.

(** [open(p, "rb").read()]. *)
Definition open_read (p : path) : M bytes :=
  do found <- ask (fun r => find_entry r p);
  match found with
  | inl (File data) => ret data
  | inl (Dir _) => raise (os_error EISDIR p)
  | inr e => raise (os_error e p)
  end.

(** [open(p, "wb").write(data)]. *)
Definition open_write (p : path) (data : bytes) : M unit :=
  do written <- ask (fun r => write_entry r p data);
  match written with
  | inl r => set_root r
  | inr e => raise (os_error e p)
  end.

(** Whether anything, file or directory, is at [p]. *)
Definition is_there (p : path) : M bool :=
  ask (fun r => match find_entry r p with inl _ => true | inr _ => false end).

(** [p.exists()]. *)
Definition path_exists (p : path) : M bool :=
  run log (EvExists p);
  is_there p.

(** [p.read_bytes()]. *)
Definition read_bytes (p : path) : M bytes :=
  run log (EvReadBytes p);
  open_read p.

(** [p.mkdir(parents=True, exist_ok=True)]. *)
Definition mkdir (p : path) : M unit :=
  run log (EvMkdir p);
  do made <- ask (fun r => make_dirs r p);
  match made with
  | inl r => set_root r
  | inr e => raise (os_error e p)
  end.

(** [shutil.copyfile(src, dst)]: it refuses to copy a file onto itself,
    then opens the source for reading and the destination for writing. *)
Definition copyfile (src dst : path) : M unit :=
  run log (EvCopyFile src dst);
  do there <- is_there src;
  if bool_decide (src = dst) && there
  then raise (SameFileError (same_file_message src dst))
  else
    do data <- open_read src;
    open_write dst data.

(** [doc.save()]. *)
Definition save (doc : Canvas) : M unit :=
  run log (EvSave (canvas_filename doc));
  open_write (canvas_filename doc) (pdf_bytes doc).

(* ================================================================= *)
(** ** [convert] *)

(** [b"%PDF-"]. *)
Definition PDF_SIGNATURE : bytes := [x25; x50; x44; x46; x2d].

Inductive encoding := Utf8Sig | Utf16 | Latin1.

(** [data.decode(encoding)], [None] for [UnicodeDecodeError]. *)
Definition decode (enc : encoding) (data : bytes) : option str :=
  match enc with
  | Utf8Sig => decode_utf_8_sig data
  | Utf16 => decode_utf_16 data
  | Latin1 => Some (decode_latin_1 data)
  end.

(** The [for encoding in ...] loop with its [try], [break] and [continue]:
    the value of [text] when the loop is left, [None] standing for the
    Python [None]. *)
Fixpoint try_encodings (encodings : list encoding) (data : bytes) : option str :=
  match encodings with
  | [] => None
  | enc :: rest =>
      match decode enc data with
      | Some text => Some text
      | None => try_encodings rest data
      end
  end.

Definition ENCODINGS : list encoding := [Utf8Sig; Utf16; Latin1].

(** Lines 43 to 51: the loop, then the fallback when [text is None]. *)
Definition decode_text (data : bytes) : str :=
  match try_encodings ENCODINGS data with
  | Some text => text
  | None => decode_utf_8_ignore data
  end.

(** The body of [for segment in wrap_lines(text)], on the canvas and the
    cursor [y]; [height] is the page height. *)
Definition draw_segment (height : Z) (st : Canvas * Z) (segment : str) : Canvas * Z :=
  let '(doc, y) := st in
  let '(doc, y) :=
    if y <=? MARGIN then
      let doc := showPage doc in
      let doc := setFont doc (lit "Helvetica") 11 in
      (doc, height - MARGIN)
    else (doc, y) in
  let doc := drawString doc MARGIN y segment in
  (doc, y - LINE_HEIGHT).

(** Lines 55 to 69: the canvas when [doc.save()] is reached. *)
Definition render (jsf_path pdf_path : path) (text : str) : Canvas :=
  let doc := Canvas_new pdf_path LETTER in
  let '(width, height) := LETTER in
  let y := height - MARGIN in
  let doc := setFont doc (lit "Helvetica") 11 in
  let doc := drawString doc MARGIN y (lit "Source: " ++ path_name jsf_path) in
  let y := y - LINE_HEIGHT * 2 in
  fst (fold_left (draw_segment height) (segments (wrap_lines text 100)) (doc, y)).

Definition convert (jsf_path pdf_path : path) : M unit :=
  do found <- path_exists jsf_path;
  if negb found then
    raise (FileNotFoundError (lit "Missing input: " ++ path_str jsf_path))
  else
    do data <- read_bytes jsf_path;
    if startswith data PDF_SIGNATURE then
      run mkdir (path_parent pdf_path);
      copyfile jsf_path pdf_path
    else
      let text := decode_text data in
      run mkdir (path_parent pdf_path);
      save (render jsf_path pdf_path text).

(* ================================================================= *)
(** ** [main] *)

Definition USAGE : str := lit "Usage: converter.py <input.jsf> <output.pdf>".

(** [main()], on [sys.argv]; its value is the exit code of the process. *)
Definition main (argv : list str) : M Z :=
  if negb (len argv =? 3) then
    run eprint USAGE;
    ret 1
  else
    do jsf_path <- resolve_path (nth 1 argv []);
    do pdf_path <- resolve_path (nth 2 argv []);
    try_except
      (run convert jsf_path pdf_path; ret 0)
      (fun exc => run eprint (lit "Conversion failed: " ++ exn_str exc); ret 1).

End Program.

(* ================================================================= *)
(** ** A concrete runtime

    One instance of [Runtime], to run the model on examples: the codecs
    follow the Unicode definitions of UTF-8 and UTF-16 (little-endian when
    there is no byte-order mark), paths are resolved in a world without
    symbolic links whose working directory is the root, and the serialiser
    keeps the file header only. *)

Module Sample.

Definition is_cont (b : N) : bool := ((128 <=? b) && (b <=? 191))%N.

(** The well-formed UTF-8 sequence at the head of [bs], if there is one:
    its code point and what follows it. *)
Definition utf8_sequence (bs : list N) : option (N * list N) :=
  match bs with
  | [] => None
  | b0 :: r0 =>
      if (b0 <? 128)%N then Some (b0, r0)
      else if ((194 <=? b0) && (b0 <=? 223))%N then
        match r0 with
        | b1 :: r1 =>
            if is_cont b1 then Some (((b0 - 192) * 64 + (b1 - 128))%N, r1) else None
        | _ => None
        end
      else if ((224 <=? b0) && (b0 <=? 239))%N then
        match r0 with
        | b1 :: b2 :: r2 =>
            let lo := (if b0 =? 224 then 160 else 128)%N in
            let hi := (if b0 =? 237 then 159 else 191)%N in
            if ((lo <=? b1) && (b1 <=? hi))%N && is_cont b2
            then Some ((((b0 - 224) * 64 + (b1 - 128)) * 64 + (b2 - 128))%N, r2)
            else None
        | _ => None
        end
      else if ((240 <=? b0) && (b0 <=? 244))%N then
        match r0 with
        | b1 :: b2 :: b3 :: r3 =>
            let lo := (if b0 =? 240 then 144 else 128)%N in
            let hi := (if b0 =? 244 then 143 else 191)%N in
            if ((lo <=? b1) && (b1 <=? hi))%N && is_cont b2 && is_cont b3
            then Some (((((b0 - 240) * 64 + (b1 - 128)) * 64 + (b2 - 128)) * 64
                        + (b3 - 128))%N, r3)
            else None
        | _ => None
        end
      else None
  end.

(** Strict UTF-8 ([lenient = false]: [None] at the first ill-formed byte)
    and UTF-8 with [errors="ignore"] ([lenient = true]: the byte is
    skipped). *)
Fixpoint utf8_decode (lenient : bool) (fuel : nat) (bs : list N) : option str :=
  match fuel with
  | O => Some []
  | S fuel' =>
      match bs with
      | [] => Some []
      | _ :: tl =>
          match utf8_sequence bs with
          | Some (c, rest) => cons c <$> utf8_decode lenient fuel' rest
          | None => if lenient then utf8_decode lenient fuel' tl else None
          end
      end
  end.

Definition utf_8_sig (data : bytes) : option str :=
  let bs := map Byte.to_N data in
  let bs := match bs with
            | 239%N :: 187%N :: 191%N :: rest => rest
            | _ => bs
            end in
  utf8_decode false (length bs) bs.

Definition utf_8_ignore (data : bytes) : str :=
  let bs := map Byte.to_N data in
  default [] (utf8_decode true (length bs) bs).

(** The 16-bit units of [bs]; [None] when a byte is left over. *)
Fixpoint utf16_units (little : bool) (bs : list N) : option (list N) :=
  match bs with
  | [] => Some []
  | [_] => None
  | b0 :: b1 :: rest =>
      cons (if little then b0 + 256 * b1 else 256 * b0 + b1)%N
        <$> utf16_units little rest
  end.

(** Surrogate pairs joined; [None] for a surrogate that is not paired. *)
Fixpoint utf16_join (us : list N) : option str :=
  match us with
  | [] => Some []
  | u :: rest =>
      if ((55296 <=? u) && (u <=? 56319))%N then
        match rest with
        | v :: rest' =>
            if ((56320 <=? v) && (v <=? 57343))%N
            then cons (65536 + (u - 55296) * 1024 + (v - 56320))%N <$> utf16_join rest'
            else None
        | [] => None
        end
      else if ((56320 <=? u) && (u <=? 57343))%N then None
      else cons u <$> utf16_join rest
  end.

Definition utf_16 (data : bytes) : option str :=
  let bs := map Byte.to_N data in
  let '(little, bs) :=
    match bs with
    | 255%N :: 254%N :: rest => (true, rest)
    | 254%N :: 255%N :: rest => (false, rest)
    | _ => (true, bs)
    end in
  utf16_units little bs ≫= utf16_join.

(** The components of a slash-separated path. *)
Fixpoint split_path (cur : str) (s : str) : path :=
  match s with
  | [] => match cur with [] => [] | _ => [cur] end
  | c :: rest =>
      if (c =? 47)%N
      then match cur with [] => split_path [] rest | _ => cur :: split_path [] rest end
      else split_path (cur ++ [c]) rest
  end.

Definition header_only (doc : Canvas) : bytes :=
  [x25; x50; x44; x46; x2d; x31; x2e; x33; x0a].

(** An argument that begins with a tilde names a home directory, and the
    sample has none. *)
Definition resolve_plain (arg : str) : option path :=
  match arg with
  | 126%N :: _ => None
  | _ => Some (split_path [] arg)
  end.

Definition strerror (e : errno) : str :=
  match e with
  | ENOENT => lit "[Errno 2] No such file or directory: "
  | EEXIST => lit "[Errno 17] File exists: "
  | ENOTDIR => lit "[Errno 20] Not a directory: "
  | EISDIR => lit "[Errno 21] Is a directory: "
  end.

Definition runtime : Runtime := {|
  decode_utf_8_sig := utf_8_sig;
  decode_utf_16 := utf_16;
  decode_utf_8_ignore := utf_8_ignore;
  resolve := resolve_plain;
  resolve_error_message := fun _ => lit "Could not determine home directory.";
  pdf_bytes := header_only;
  os_error_message := fun e p => strerror e ++ path_str p;
  same_file_message :=
    fun src dst => path_str src ++ lit " and " ++ path_str dst ++ lit " are the same file"
|}.

(** The tree with one file, at [p], and the directories above it. *)
Fixpoint tree_of (p : path) (data : bytes) : gmap str node :=
  match p with
  | [] => ∅
  | [name] => {[ name := File data ]}
  | name :: p' => {[ name := Dir (tree_of p' data) ]}
  end.

(** A world with one file. *)
Definition one_file (p : path) (data : bytes) : world :=
  mkWorld (tree_of p data) [] [].

End Sample.

(* ================================================================= *)
(** ** Vocabulary of the properties *)

(** A string without any line boundary. *)
Definition no_linebreak (s : str) : Prop :=
  Forall (fun c => is_linebreak c = false) s.

(** The lines a generator can still draw segments from. *)
Definition gen_source (g : generator) : list str :=
  match gen_while g with
  | Some (line, _) => line :: gen_lines g
  | None => gen_lines g
  end.

(** [start] has not gone below zero. *)
Definition gen_start_ok (g : generator) : Prop :=
  match gen_while g with
  | Some (_, start) => 0 <= start
  | None => True
  end.

(** How a segment comes from a line: the line itself when it fits, or the
    slice of [max_chars] characters at [start]. *)
Inductive segment_of (max_chars : Z) (line seg : str) : Prop :=
| segment_whole : len line <= max_chars -> seg = line -> segment_of max_chars line seg
| segment_slice (start : Z) :
    0 <= start -> seg = slice line start (start + max_chars) ->
    segment_of max_chars line seg.

(** The same, whatever the sign of [start] and of the width. *)
Inductive part_of (line seg : str) : Prop :=
| part_whole : seg = line -> part_of line seg
| part_slice (a b : Z) : seg = slice line a b -> part_of line seg.

(** The strings drawn on a canvas, in order. *)
Definition drawn_texts (doc : Canvas) : list str :=
  omap (fun c => match c with DrawString _ _ s => Some s | _ => None end)
    (canvas_calls doc).

(** A string is drawn at the left margin, above the bottom margin. *)
Definition above_margin (c : canvas_call) : Prop :=
  match c with
  | DrawString x y _ => x = MARGIN /\ MARGIN < y
  | _ => True
  end.

(** The strings drawn on a canvas with their positions, in order. *)
Definition drawn_strings (calls : list canvas_call) : list (Z * Z * str) :=
  omap (fun c => match c with DrawString x y s => Some (x, y, s) | _ => None end)
    calls.

(** A text with its line boundaries taken out. *)
Definition strip_linebreaks (text : str) : str :=
  List.filter (fun c => negb (is_linebreak c)) text.

(** The calls the [for] loop of [convert] makes on the canvas, from the
    cursor [y], on a page of the given height. *)
Fixpoint loop_calls (height y : Z) (segs : list str) : list canvas_call :=
  match segs with
  | [] => []
  | seg :: segs' =>
      if y <=? MARGIN then
        ShowPage :: SetFont (lit "Helvetica") 11
          :: DrawString MARGIN (height - MARGIN) seg
          :: loop_calls height (height - MARGIN - LINE_HEIGHT) segs'
      else DrawString MARGIN y seg :: loop_calls height (y - LINE_HEIGHT) segs'
  end.

(** The pages needed for [n] segments: 45 fit under the title, 47 on each
    page after the first. *)
Definition page_count (n : nat) : nat :=
  if (n <=? 45)%nat then 1%nat else (2 + (n - 46) / 47)%nat.

(** A page begins with a string at the top margin and holds at most 47. *)
Definition page_ok (page : list (Z * Z * str)) : Prop :=
  (exists s rest, page = (72, 720, s) :: rest) /\ (length page <= 47)%nat.

(** What a path shows from outside: a regular file with its bytes, or a
    directory. *)
Inductive entry :=
| EntryFile (data : bytes)
| EntryDir.

Definition entry_in (ch : gmap str node) (p : path) : option entry :=
  match find_entry ch p with
  | inl (File data) => Some (EntryFile data)
  | inl (Dir _) => Some EntryDir
  | inr _ => None
  end.

Definition entry_at (w : world) (p : path) : option entry := entry_in (root w) p.

(** The bytes of the regular file at [p], when there is one. *)
Definition file_in (ch : gmap str node) (p : path) : option bytes :=
  match entry_in ch p with
  | Some (EntryFile data) => Some data
  | _ => None
  end.

Definition file_at (w : world) (p : path) : option bytes := file_in (root w) p.

(** A file can be written at [p]: no regular file stands at the parent of
    [p] or above it, and [p] is not a directory. *)
Definition writable (w : world) (p : path) : Prop :=
  (forall q, q `prefix_of` path_parent p -> file_at w q = None)
  /\ entry_at w p <> Some EntryDir.

(** The tree after a file with [data] was written at [p], seen from
    outside: the file at [p], directories above it, the rest as in [w]. *)
Definition written (w : world) (p : path) (data : bytes) (q : path) : option entry :=
  if decide (q = p) then Some (EntryFile data)
  else if decide (q `prefix_of` path_parent p) then Some EntryDir
  else entry_at w q.

(** What [convert] can add to the trace after its existence test: nothing;
    the read alone; the read and the [mkdir]; these and one copy; these and
    one save. *)
Inductive convert_effects (jsf_path pdf_path : path) : list event -> Prop :=
| effects_missing : convert_effects jsf_path pdf_path []
| effects_read : convert_effects jsf_path pdf_path [EvReadBytes jsf_path]
| effects_mkdir :
    convert_effects jsf_path pdf_path
      [EvReadBytes jsf_path; EvMkdir (path_parent pdf_path)]
| effects_copy :
    convert_effects jsf_path pdf_path
      [EvReadBytes jsf_path; EvMkdir (path_parent pdf_path);
       EvCopyFile jsf_path pdf_path]
| effects_render :
    convert_effects jsf_path pdf_path
      [EvReadBytes jsf_path; EvMkdir (path_parent pdf_path); EvSave pdf_path].

(** Reduces a run, leaving the calls on the tree and the texts folded. *)
Ltac simp_program :=
  cbn -[startswith decode_text render lit path_str app insert lookup
        find_entry make_dirs write_entry path_parent].

(** Unfolds the monad and the file-system operations of a run. *)
Ltac run_program :=
  unfold main, convert, resolve_path, path_exists, read_bytes, mkdir, copyfile,
    save, open_read, open_write, is_there, try_except, bind, ret, raise, log,
    eprint, ask, set_root;
  simp_program.

(* ================================================================= *)
(** * Properties *)

(** ** Slices and line splitting *)

Lemma len_nonneg {A} (s : list A) : 0 <= len s.
Proof. unfold len. lia. Qed.

(** A slice is a run of consecutive elements of the sequence. *)
Lemma slice_contiguous {A} (s : list A) (a b : Z) :
  exists pre post, s = pre ++ slice s a b ++ post.
Proof.
  unfold slice.
  set (i := Z.to_nat (clamp_index (len s) a)).
  set (k := Z.to_nat (clamp_index (len s) b - clamp_index (len s) a)).
  exists (take i s), (drop k (drop i s)).
  now rewrite (take_drop k), (take_drop i).
Qed.

Lemma slice_Forall {A} (P : A -> Prop) (s : list A) (a b : Z) :
  Forall P s -> Forall P (slice s a b).
Proof. intros H. unfold slice. now apply Forall_take, Forall_drop. Qed.

(** From a non-negative [start], a slice of non-negative width is the plain
    [take] after [drop]. *)
Lemma slice_take_drop {A} (s : list A) (start w : Z) :
  0 <= start -> 0 <= w ->
  slice s start (start + w) = take (Z.to_nat w) (drop (Z.to_nat start) s).
Proof.
  intros Hs Hw. unfold slice, clamp_index.
  destruct (Z.ltb_spec start 0) as [?|_]; [lia|].
  destruct (Z.ltb_spec (start + w) 0) as [?|_]; [lia|].
  pose proof (len_nonneg s) as Hn. unfold len in *.
  destruct (Z_lt_le_dec (Z.of_nat (length s)) start) as [Hout|Hin].
  - rewrite !Z.min_r by lia.
    rewrite (drop_ge s (Z.to_nat (Z.of_nat (length s)))) by lia.
    rewrite (drop_ge s (Z.to_nat start)) by lia.
    now rewrite !take_nil.
  - rewrite (Z.min_l start) by lia.
    destruct (Z_lt_le_dec (Z.of_nat (length s)) (start + w)) as [Hend|Hend].
    + rewrite (Z.min_r (start + w)) by lia.
      rewrite !take_ge; [reflexivity | |]; rewrite length_drop; lia.
    + rewrite (Z.min_l (start + w)) by lia. f_equal. lia.
Qed.

Lemma slice_len_le {A} (s : list A) (start w : Z) :
  0 <= start -> 0 <= w -> len (slice s start (start + w)) <= w.
Proof.
  intros Hs Hw. rewrite slice_take_drop by assumption.
  unfold len. rewrite length_take. lia.
Qed.

(** Every line [splitlines] returns is free of line boundaries. *)
Lemma splitlines_from_no_linebreak (n : nat) :
  forall s cur, (length s <= n)%nat -> no_linebreak cur ->
    Forall no_linebreak (splitlines_from cur s).
Proof.
  induction n as [|n IH]; intros s cur Hlen Hcur.
  - destruct s; [|simpl in Hlen; lia].
    simpl. destruct cur; [constructor | constructor; [assumption | constructor]].
  - destruct s as [|c rest]; simpl.
    + destruct cur; [constructor | constructor; [assumption | constructor]].
    + simpl in Hlen. destruct (is_linebreak c) eqn:Hc.
      * constructor; [assumption|].
        destruct rest as [|c' rest'].
        -- simpl. constructor.
        -- destruct ((c =? 13) && (c' =? 10))%N.
           ++ apply IH; [simpl in Hlen; lia | constructor].
           ++ apply IH; [lia | constructor].
      * apply IH; [lia|].
        apply Forall_app. split; [assumption|].
        constructor; [assumption | constructor].
Qed.

Lemma source_lines_no_linebreak (text : str) :
  Forall no_linebreak (source_lines text).
Proof.
  unfold source_lines, splitlines.
  pose proof (splitlines_from_no_linebreak (length text) text [] (le_n _)
                ltac:(constructor)) as H.
  destruct (splitlines_from [] text);
    [constructor; [constructor | constructor] | exact H].
Qed.

(** A text without line boundaries is its own single line. *)
Lemma splitlines_from_single (s cur : str) :
  no_linebreak s ->
  splitlines_from cur s = match cur ++ s with [] => [] | l => [l] end.
Proof.
  revert cur. induction s as [|c rest IH]; intros cur Hs; simpl.
  - rewrite app_nil_r. destruct cur; reflexivity.
  - inversion Hs as [|? ? Hc Hrest]; subst. rewrite Hc.
    rewrite IH by assumption. now rewrite <- app_assoc.
Qed.

Lemma source_lines_single (line : str) :
  no_linebreak line -> source_lines line = [line].
Proof.
  intros H. unfold source_lines, splitlines.
  rewrite splitlines_from_single by assumption. simpl.
  destruct line; reflexivity.
Qed.

(** ** One step of the generator *)

Lemma while_turn_Some (max_chars : Z) (line : str) (start : Z) seg start' :
  while_turn max_chars line start = Some (seg, start') ->
  start < len line /\ seg = slice line start (start + max_chars)
  /\ start' = start + max_chars.
Proof.
  unfold while_turn. destruct (Z.ltb_spec start (len line)); [|discriminate].
  intros [= <- <-]. auto.
Qed.

Lemma while_turn_None (max_chars : Z) (line : str) (start : Z) :
  while_turn max_chars line start = None -> len line <= start.
Proof.
  unfold while_turn. destruct (Z.ltb_spec start (len line)); [discriminate|auto].
Qed.

Lemma next_from_lines_step (max_chars : Z) (lines : list str) seg g' :
  next_from_lines max_chars lines = Some (seg, g') ->
  gen_max_chars g' = max_chars
  /\ (forall l, l ∈ gen_source g' -> l ∈ lines)
  /\ (0 <= max_chars -> gen_start_ok g')
  /\ exists line, line ∈ lines /\ part_of line seg
       /\ (0 <= max_chars -> segment_of max_chars line seg).
Proof.
  induction lines as [|line rest IH]; simpl; [discriminate|].
  destruct (Z.leb_spec (len line) max_chars) as [Hfit|Hlong].
  - intros [= <- <-]. unfold gen_source, gen_start_ok; simpl.
    refine (conj eq_refl (conj _ (conj (fun _ => I) _))).
    + intros l Hl. now apply list_elem_of_further.
    + exists line. split; [apply list_elem_of_here|].
      split; [now apply part_whole | intros _; now apply segment_whole].
  - destruct (while_turn max_chars line 0) as [[seg0 start]|] eqn:Hturn.
    + intros [= <- <-].
      apply while_turn_Some in Hturn as (_ & -> & ->).
      unfold gen_source, gen_start_ok; simpl.
      refine (conj eq_refl (conj (fun l Hl => Hl) (conj _ _))); [lia|].
      exists line. split; [apply list_elem_of_here|].
      split; [now apply (part_slice _ _ 0 (0 + max_chars))|].
      intros _. now apply (segment_slice _ _ _ 0).
    + intros Hnext. destruct (IH Hnext) as (Hmax & Hsrc & Hok & l0 & Hin & Hp & Hs).
      refine (conj Hmax (conj _ (conj Hok _))).
      * intros l Hl. apply list_elem_of_further. now apply Hsrc.
      * exists l0. split; [now apply list_elem_of_further|]. now split.
Qed.

Lemma next_step (g : generator) seg g' :
  next g = Some (seg, g') ->
  gen_max_chars g' = gen_max_chars g
  /\ (forall l, l ∈ gen_source g' -> l ∈ gen_source g)
  /\ (0 <= gen_max_chars g -> gen_start_ok g -> gen_start_ok g')
  /\ exists line, line ∈ gen_source g /\ part_of line seg
       /\ (0 <= gen_max_chars g -> gen_start_ok g ->
           segment_of (gen_max_chars g) line seg).
Proof.
  destruct g as [max_chars lines [[line start]|]]; unfold next; simpl.
  - destruct (while_turn max_chars line start) as [[seg0 start']|] eqn:Hturn.
    + intros [= <- <-].
      apply while_turn_Some in Hturn as (_ & -> & ->).
      unfold gen_source, gen_start_ok; simpl.
      refine (conj eq_refl (conj (fun l Hl => Hl) (conj _ _))); [lia|].
      exists line. split; [apply list_elem_of_here|].
      split; [now apply (part_slice _ _ start (start + max_chars))|].
      intros _ Hstart. now apply (segment_slice _ _ _ start).
    + intros Hnext.
      destruct (next_from_lines_step _ _ _ _ Hnext)
        as (Hmax & Hsrc & Hok & l0 & Hin & Hp & Hs).
      unfold gen_source at 2; simpl.
      refine (conj Hmax (conj _ (conj (fun H _ => Hok H) _))).
      * intros l Hl. apply list_elem_of_further. now apply Hsrc.
      * exists l0. split; [now apply list_elem_of_further|]. split; auto.
  - intros Hnext.
    destruct (next_from_lines_step _ _ _ _ Hnext)
      as (Hmax & Hsrc & Hok & l0 & Hin & Hp & Hs).
    unfold gen_source at 2; simpl.
    refine (conj Hmax (conj Hsrc (conj (fun H _ => Hok H) _))).
    exists l0. split; [assumption|]. split; auto.
Qed.

(** An invariant of [next] holds along every run, and what it gives for a
    segment holds of all the segments yielded. *)
Lemma take_yields_Forall (Inv : generator -> Prop) (Q : str -> Prop) :
  (forall g seg g', Inv g -> next g = Some (seg, g') -> Q seg /\ Inv g') ->
  forall n g, Inv g -> Forall Q (take_yields n g).
Proof.
  intros Hstep. induction n as [|n IH]; intros g Hg; simpl; [constructor|].
  destruct (next g) as [[seg g']|] eqn:Hnext; [|constructor].
  destruct (Hstep _ _ _ Hg Hnext) as [Hq Hg'].
  constructor; [assumption | now apply IH].
Qed.

Lemma part_of_contiguous (line seg : str) :
  part_of line seg -> exists pre post, line = pre ++ seg ++ post.
Proof.
  intros [->|a b ->].
  - exists [], []. now rewrite app_nil_r.
  - apply slice_contiguous.
Qed.

Lemma part_of_no_linebreak (line seg : str) :
  no_linebreak line -> part_of line seg -> no_linebreak seg.
Proof. intros Hl [->|a b ->]; [assumption | now apply slice_Forall]. Qed.

Lemma segment_of_len (max_chars : Z) (line seg : str) :
  0 <= max_chars -> segment_of max_chars line seg -> len seg <= max_chars.
Proof.
  intros Hmax [Hfit ->|start Hstart ->]; [assumption|].
  now apply slice_len_le.
Qed.

(** ** Termination of the generator *)

Lemma next_from_lines_size (max_chars : Z) (lines : list str) seg g' :
  1 <= max_chars ->
  next_from_lines max_chars lines = Some (seg, g') ->
  (gen_size g' < lines_size lines)%nat.
Proof.
  intros Hmax. induction lines as [|line rest IH]; simpl; [discriminate|].
  destruct (Z.leb_spec (len line) max_chars) as [Hfit|Hlong].
  - intros [= <- <-]. unfold gen_size; simpl. lia.
  - destruct (while_turn max_chars line 0) as [[seg0 start]|] eqn:Hturn.
    + intros [= <- <-]. apply while_turn_Some in Hturn as (_ & _ & ->).
      unfold gen_size, len in *; simpl. lia.
    + intros Hnext. specialize (IH Hnext). lia.
Qed.

Lemma next_size (g : generator) seg g' :
  1 <= gen_max_chars g -> next g = Some (seg, g') ->
  (gen_size g' < gen_size g)%nat.
Proof.
  intros Hmax. destruct g as [max_chars lines [[line start]|]];
    unfold next; simpl in *.
  - destruct (while_turn max_chars line start) as [[seg0 start']|] eqn:Hturn.
    + intros [= <- <-]. apply while_turn_Some in Hturn as (Hlt & _ & ->).
      unfold gen_size, len in *; simpl. lia.
    + intros Hnext. apply next_from_lines_size in Hnext; [|assumption].
      unfold gen_size at 2; simpl. lia.
  - intros Hnext. apply next_from_lines_size in Hnext; [|assumption].
    unfold gen_size at 2; simpl. lia.
Qed.

Lemma list_gen_enough (n : nat) :
  forall g, 1 <= gen_max_chars g -> (gen_size g < n)%nat ->
    list_gen n g = Some (take_yields n g).
Proof.
  induction n as [|n IH]; intros g Hmax Hsize; [lia|]. simpl.
  destruct (next g) as [[seg g']|] eqn:Hnext; [|reflexivity].
  pose proof (next_size _ _ _ Hmax Hnext) as Hlt.
  destruct (next_step _ _ _ Hnext) as (Hmax' & _).
  rewrite IH; [reflexivity | lia | lia].
Qed.

(** With a width of at least 1, [gen_budget] calls exhaust the generator. *)
Lemma list_gen_budget (g : generator) :
  1 <= gen_max_chars g -> list_gen (gen_budget g) g = Some (segments g).
Proof. intros Hmax. apply list_gen_enough; [assumption | unfold gen_budget; lia]. Qed.

Lemma list_gen_mono (n : nat) :
  forall m g segs, list_gen n g = Some segs -> (n <= m)%nat ->
    list_gen m g = Some segs.
Proof.
  induction n as [|n IH]; intros m g segs; simpl; [discriminate|].
  intros H Hle. destruct m as [|m]; [lia|]. simpl.
  destruct (next g) as [[seg g']|]; [|assumption].
  destruct (list_gen n g') as [segs'|] eqn:Hrec; [|discriminate].
  rewrite (IH m g' segs' Hrec) by lia. assumption.
Qed.

Lemma list_gen_unique (n m : nat) (g : generator) (a b : list str) :
  list_gen n g = Some a -> list_gen m g = Some b -> a = b.
Proof.
  intros Ha Hb.
  apply (list_gen_mono _ (Nat.max n m)) in Ha; [|lia].
  apply (list_gen_mono _ (Nat.max n m)) in Hb; [|lia]. congruence.
Qed.

Lemma drains_list_gen (g : generator) (segs : list str) :
  drains g segs -> list_gen (S (length segs)) g = Some segs.
Proof.
  induction 1 as [g Hstop | g seg g' segs Hnext _ IH].
  - simpl. now rewrite Hstop.
  - change (list_gen (S (length (seg :: segs))) g)
      with (match next g with
            | None => Some []
            | Some (seg, g') =>
                match list_gen (S (length segs)) g' with
                | Some segs => Some (seg :: segs)
                | None => None
                end
            end).
    now rewrite Hnext, IH.
Qed.

(** A run is determined by what [next] answers first. *)
Lemma drains_next_eq (g1 g2 : generator) (segs : list str) :
  next g1 = next g2 -> drains g2 segs -> drains g1 segs.
Proof.
  intros Heq H. inversion H as [g Hstop | g seg g' segs' Hnext Hrest]; subst.
  - apply drains_stop. congruence.
  - eapply drains_yield; [|eassumption]. congruence.
Qed.

(** ** Chunks *)

Lemma chunks_fuel_any (w : nat) (f1 : nat) :
  (0 < w)%nat -> forall f2 l, (length l <= f1)%nat -> (length l <= f2)%nat ->
    chunks_fuel f1 w l = chunks_fuel f2 w l.
Proof.
  intros Hw. induction f1 as [|f1 IH]; intros f2 l H1 H2.
  - destruct l; [|simpl in H1; lia]. destruct f2; reflexivity.
  - destruct l as [|c l]; [destruct f2; reflexivity|].
    destruct f2 as [|f2]; [simpl in H2; lia|].
    simpl chunks_fuel. f_equal.
    apply IH; rewrite length_drop; simpl in *; lia.
Qed.

Lemma chunks_nil (w : nat) : chunks w [] = [].
Proof. reflexivity. Qed.

Lemma chunks_cons (w : nat) (l : str) :
  (0 < w)%nat -> l <> [] -> chunks w l = take w l :: chunks w (drop w l).
Proof.
  intros Hw Hl. unfold chunks. destruct l as [|c l]; [congruence|].
  simpl chunks_fuel. f_equal.
  apply chunks_fuel_any; [assumption | | lia].
  rewrite length_drop. simpl. lia.
Qed.

Lemma concat_chunks (w : nat) (n : nat) :
  (0 < w)%nat -> forall l, (length l <= n)%nat -> concat (chunks w l) = l.
Proof.
  intros Hw. induction n as [|n IH]; intros l Hl.
  - destruct l; [reflexivity | simpl in Hl; lia].
  - destruct l as [|c l]; [reflexivity|].
    rewrite chunks_cons by (assumption || discriminate).
    simpl concat. rewrite IH; [apply take_drop|].
    rewrite length_drop. simpl in *. lia.
Qed.

(** The [i]-th chunk is the [w] characters at [i * w], and it is not
    empty. *)
Lemma chunks_lookup (w : nat) (i : nat) :
  (0 < w)%nat -> forall l c, chunks w l !! i = Some c ->
    c = take w (drop (i * w) l) /\ (i * w < length l)%nat.
Proof.
  intros Hw. induction i as [|i IH]; intros l c Hc.
  - destruct l as [|x l]; [discriminate|].
    rewrite chunks_cons in Hc by (assumption || discriminate).
    simpl in Hc. injection Hc as <-. simpl. split; [reflexivity | lia].
  - destruct l as [|x l]; [discriminate|].
    rewrite chunks_cons in Hc by (assumption || discriminate).
    simpl in Hc. apply IH in Hc as [-> Hlt].
    rewrite drop_drop, length_drop in *.
    split; [f_equal; f_equal; lia | lia].
Qed.

Lemma chunks_length (w : nat) (n : nat) :
  (0 < w)%nat -> forall l, (length l <= n)%nat ->
    (length (chunks w l) * w < length l + w)%nat.
Proof.
  intros Hw. induction n as [|n IH]; intros l Hl.
  - destruct l; [simpl; lia | simpl in Hl; lia].
  - destruct l as [|c l]; [simpl; lia|].
    rewrite chunks_cons by (assumption || discriminate).
    assert (length (drop w (c :: l)) <= n)%nat as Hd
      by (rewrite length_drop; simpl in *; lia).
    specialize (IH _ Hd). rewrite length_drop in IH.
    set (k := length (chunks w (drop w (c :: l)))) in *.
    change (length (take w (c :: l) :: chunks w (drop w (c :: l)))) with (S k).
    simpl length in *. clearbody k. clear Hd.
    destruct k as [|k]; simpl in *; lia.
Qed.

(** ** The generator against the specification's wording *)

Lemma drains_while (max_chars : Z) (rest : list str) (segs : list str) (line : str) :
  1 <= max_chars -> drains (Generator max_chars rest None) segs ->
  forall (k : nat) (start : Z),
    0 <= start -> (Z.to_nat (len line - start) <= k)%nat ->
    drains (Generator max_chars rest (Some (line, start)))
      (chunks (Z.to_nat max_chars) (drop (Z.to_nat start) line) ++ segs).
Proof.
  intros Hmax Hrest.
  assert (forall start, len line <= start -> 0 <= start ->
            drains (Generator max_chars rest (Some (line, start)))
              (chunks (Z.to_nat max_chars) (drop (Z.to_nat start) line) ++ segs))
    as Hout.
  { intros start Hge Hstart.
    rewrite drop_ge by (unfold len in Hge; lia). simpl.
    apply (drains_next_eq _ (Generator max_chars rest None)); [|assumption].
    unfold next, while_turn; simpl.
    destruct (Z.ltb_spec start (len line)); [lia | reflexivity]. }
  induction k as [|k IH]; intros start Hstart Hk.
  - apply Hout; [unfold len in *; lia | assumption].
  - destruct (Z_lt_le_dec start (len line)) as [Hin|Hge]; [|now apply Hout].
    rewrite chunks_cons;
      [ | lia | intros Hnil; apply (f_equal length) in Hnil;
              rewrite length_drop in Hnil; unfold len in Hin; simpl in Hnil; lia ].
    rewrite drop_drop. simpl.
    replace (Z.to_nat start + Z.to_nat max_chars)%nat
      with (Z.to_nat (start + max_chars)) by lia.
    rewrite <- (slice_take_drop line start max_chars) by lia.
    eapply drains_yield.
    + unfold next, while_turn; simpl.
      destruct (Z.ltb_spec start (len line)); [reflexivity | lia].
    + apply IH; [lia | unfold len in *; lia].
Qed.

Lemma drains_lines (max_chars : Z) (lines : list str) :
  1 <= max_chars ->
  drains (Generator max_chars lines None)
    (concat (map (line_segments max_chars) lines)).
Proof.
  intros Hmax. induction lines as [|line rest IH]; simpl.
  - now apply drains_stop.
  - unfold line_segments at 1.
    destruct (Z.leb_spec (len line) max_chars) as [Hfit|Hlong].
    + simpl. eapply drains_yield; [|exact IH].
      unfold next; simpl.
      destruct (Z.leb_spec (len line) max_chars); [reflexivity | lia].
    + rewrite chunks_cons;
        [ | lia | intros ->; unfold len in Hlong; simpl in Hlong; lia ].
      simpl.
      replace (take (Z.to_nat max_chars) line)
        with (slice line 0 (0 + max_chars))
        by (rewrite slice_take_drop by lia; reflexivity).
      eapply drains_yield.
      * unfold next; simpl.
        destruct (Z.leb_spec (len line) max_chars); [lia|].
        unfold while_turn.
        destruct (Z.ltb_spec 0 (len line)); [reflexivity | lia].
      * replace (drop (Z.to_nat max_chars) line)
          with (drop (Z.to_nat (0 + max_chars)) line) by (f_equal; lia).
        apply (drains_while _ _ _ _ Hmax IH (length line)); unfold len; lia.
Qed.

(** With a width of at least 1 the generator yields, line after line, the
    segments the specification describes, and then stops. *)
Lemma wrap_lines_refines (text : str) (max_chars : Z) :
  1 <= max_chars ->
  segments (wrap_lines text max_chars)
  = concat (map (line_segments max_chars) (source_lines text)).
Proof.
  intros Hmax.
  pose proof (list_gen_budget (wrap_lines text max_chars) Hmax) as Hrun.
  pose proof (drains_list_gen _ _ (drains_lines max_chars (source_lines text) Hmax))
    as Hspec.
  exact (list_gen_unique _ _ _ _ _ Hrun Hspec).
Qed.

(** ** The claims on [wrap_lines] *)

(** C3. For every text and every width [max_chars >= 1], each segment
    [wrap_lines] yields is at most [max_chars] characters long: this holds
    of the first [n] segments for every [n]. *)
Theorem wrap_lines_width (text : str) (max_chars : Z) (n : nat) :
  1 <= max_chars ->
  Forall (fun seg => len seg <= max_chars)
    (take_yields n (wrap_lines text max_chars)).
Proof.
  intros Hmax.
  apply (take_yields_Forall
           (fun g => gen_max_chars g = max_chars /\ gen_start_ok g)).
  - intros g seg g' [Hg Hok] Hnext.
    destruct (next_step _ _ _ Hnext) as (Hmax' & _ & Hok' & line & _ & _ & Hseg).
    rewrite Hg in *. split.
    + apply (segment_of_len max_chars line); [lia|]. apply Hseg; [lia | assumption].
    + split; [assumption | apply Hok'; [lia | assumption]].
  - split; [reflexivity | exact I].
Qed.

Lemma wrap_lines_width_witness :
  Forall (fun seg => len seg <= 4)
    (take_yields 5 (wrap_lines (lit "hard-wrapped") 4)).
Proof. apply (wrap_lines_width (lit "hard-wrapped") 4 5). lia. Defined.

(** C9, as the code has it. For every text and every width
    [max_chars >= 1], [wrap_lines] stops after finitely many segments:
    [gen_budget] calls of [next] exhaust it. *)
Theorem wrap_lines_finite (text : str) (max_chars : Z) :
  1 <= max_chars ->
  finite (wrap_lines text max_chars)
  /\ list_gen (gen_budget (wrap_lines text max_chars)) (wrap_lines text max_chars)
     = Some (segments (wrap_lines text max_chars)).
Proof.
  intros Hmax.
  pose proof (list_gen_budget (wrap_lines text max_chars) Hmax) as Hrun.
  split; [|exact Hrun]. eexists _, _. exact Hrun.
Qed.

Lemma wrap_lines_finite_witness :
  finite (wrap_lines (lit "hard-wrapped") 4)
  /\ list_gen (gen_budget (wrap_lines (lit "hard-wrapped") 4))
       (wrap_lines (lit "hard-wrapped") 4)
     = Some (segments (wrap_lines (lit "hard-wrapped") 4)).
Proof. apply (wrap_lines_finite (lit "hard-wrapped") 4). lia. Defined.

(** With a width of 0 the [while] loop never advances. *)
Lemma list_gen_stuck (line : str) (fuel : nat) :
  0 < len line -> list_gen fuel (Generator 0 [] (Some (line, 0))) = None.
Proof.
  intros Hline. induction fuel as [|fuel IH]; [reflexivity|].
  simpl. unfold next, while_turn; simpl.
  destruct (Z.ltb_spec 0 (len line)); [|lia].
  simpl. change (0 + 0) with 0. now rewrite IH.
Qed.

(** C9, as stated, fails: [wrap_lines("a", 0)] yields the empty string for
    ever. *)
Lemma wrap_lines_zero_width_not_finite : ~ finite (wrap_lines (lit "a") 0).
Proof.
  intros (fuel & segs & Hrun). destruct fuel as [|fuel]; [discriminate|].
  simpl in Hrun.
  change (next (wrap_lines (lit "a") 0))
    with (Some (@nil N, Generator 0 [] (Some (lit "a", 0)))) in Hrun.
  rewrite list_gen_stuck in Hrun; [discriminate | reflexivity].
Qed.

Lemma segments_single_line (line : str) (max_chars : Z) :
  no_linebreak line -> 1 <= max_chars ->
  segments (wrap_lines line max_chars) = line_segments max_chars line.
Proof.
  intros Hline Hmax. rewrite wrap_lines_refines by assumption.
  rewrite source_lines_single by assumption. simpl. apply app_nil_r.
Qed.

(** C4. For a source line (a string without line boundaries) and a width
    [max_chars >= 1], [wrap_lines] stops after yielding the line unchanged
    when it is within the width, and otherwise its chunks: the [i]-th
    segment is the [max_chars] characters at [i * max_chars], every segment
    but the last is exactly [max_chars] long, the last is not empty, and the
    segments concatenated are the line. *)
Theorem wrap_lines_source_line (line : str) (max_chars : Z) :
  no_linebreak line -> 1 <= max_chars ->
  list_gen (gen_budget (wrap_lines line max_chars)) (wrap_lines line max_chars)
    = Some (segments (wrap_lines line max_chars))
  /\ (len line <= max_chars -> segments (wrap_lines line max_chars) = [line])
  /\ (max_chars < len line ->
      forall (i : nat) (seg : str),
        segments (wrap_lines line max_chars) !! i = Some seg ->
        seg = take (Z.to_nat max_chars) (drop (i * Z.to_nat max_chars) line)
        /\ 0 < len seg <= max_chars
        /\ ((S i < length (segments (wrap_lines line max_chars)))%nat ->
            len seg = max_chars))
  /\ concat (segments (wrap_lines line max_chars)) = line.
Proof.
  intros Hline Hmax.
  split; [now apply list_gen_budget|].
  rewrite segments_single_line by assumption. unfold line_segments.
  destruct (Z.leb_spec (len line) max_chars) as [Hfit|Hlong].
  - split; [reflexivity|]. split; [lia|]. simpl. apply app_nil_r.
  - split; [lia|]. split; [|apply (concat_chunks _ (length line)); lia].
    intros _ i seg Hseg.
    pose proof (chunks_length (Z.to_nat max_chars) (length line)
                  ltac:(lia) line (le_n _)) as Hcount.
    apply chunks_lookup in Hseg as [-> Hlt]; [|lia].
    split; [reflexivity|]. unfold len in *.
    rewrite length_take, length_drop. split; [lia|].
    intros Hnext.
    apply (Nat.mul_le_mono_r _ _ (Z.to_nat max_chars)) in Hnext.
    simpl in Hnext. lia.
Qed.

Lemma wrap_lines_source_line_witness :
  list_gen (gen_budget (wrap_lines (lit "hard-wrapped") 5))
      (wrap_lines (lit "hard-wrapped") 5)
    = Some (segments (wrap_lines (lit "hard-wrapped") 5))
  /\ (len (lit "hard-wrapped") <= 5 ->
      segments (wrap_lines (lit "hard-wrapped") 5) = [lit "hard-wrapped"])
  /\ (5 < len (lit "hard-wrapped") ->
      forall (i : nat) (seg : str),
        segments (wrap_lines (lit "hard-wrapped") 5) !! i = Some seg ->
        seg = take (Z.to_nat 5) (drop (i * Z.to_nat 5) (lit "hard-wrapped"))
        /\ 0 < len seg <= 5
        /\ ((S i < length (segments (wrap_lines (lit "hard-wrapped") 5)))%nat ->
            len seg = 5))
  /\ concat (segments (wrap_lines (lit "hard-wrapped") 5)) = lit "hard-wrapped".
Proof.
  apply (wrap_lines_source_line (lit "hard-wrapped") 5).
  - unfold no_linebreak. repeat constructor.
  - lia.
Defined.

(** ** The page renderer *)

Lemma draw_segment_eq (height : Z) (doc : Canvas) (y : Z) (segment : str) :
  draw_segment height (doc, y) segment =
    if y <=? MARGIN
    then (drawString (setFont (showPage doc) (lit "Helvetica") 11)
            MARGIN (height - MARGIN) segment,
          height - MARGIN - LINE_HEIGHT)
    else (drawString doc MARGIN y segment, y - LINE_HEIGHT).
Proof. unfold draw_segment. destruct (y <=? MARGIN); reflexivity. Qed.

Lemma drawn_texts_call (c : canvas_call) (doc : Canvas) :
  drawn_texts (call c doc)
  = drawn_texts doc ++ match c with DrawString _ _ s => [s] | _ => [] end.
Proof.
  unfold drawn_texts, call; simpl. rewrite omap_app. f_equal.
  destruct c; reflexivity.
Qed.

Lemma fold_draw_texts (height : Z) (segs : list str) :
  forall doc y,
    drawn_texts (fst (fold_left (draw_segment height) segs (doc, y)))
    = drawn_texts doc ++ segs.
Proof.
  induction segs as [|seg segs IH]; intros doc y; cbn [fold_left].
  - simpl. now rewrite app_nil_r.
  - rewrite draw_segment_eq. destruct (y <=? MARGIN); rewrite IH;
      unfold drawString, setFont, showPage; rewrite !drawn_texts_call;
      simpl; rewrite ?app_nil_r, <- app_assoc; reflexivity.
Qed.

Lemma fold_draw_above (height : Z) (segs : list str) :
  MARGIN < height - MARGIN ->
  forall doc y,
    Forall above_margin (canvas_calls doc) ->
    Forall above_margin
      (canvas_calls (fst (fold_left (draw_segment height) segs (doc, y)))).
Proof.
  intros Hh. induction segs as [|seg segs IH]; intros doc y Hdoc; cbn [fold_left].
  - exact Hdoc.
  - rewrite draw_segment_eq. destruct (Z.leb_spec y MARGIN) as [Hlow|Hhigh];
      apply IH; simpl; rewrite ?Forall_app; repeat split;
      try assumption; repeat constructor; assumption.
Qed.

Lemma fold_draw_filename (height : Z) (segs : list str) :
  forall doc y,
    canvas_filename (fst (fold_left (draw_segment height) segs (doc, y)))
    = canvas_filename doc.
Proof.
  induction segs as [|seg segs IH]; intros doc y; cbn [fold_left]; [reflexivity|].
  rewrite draw_segment_eq. destruct (y <=? MARGIN); rewrite IH; reflexivity.
Qed.

(** The canvas is saved where [convert] was asked to write. *)
Lemma render_filename (jsf_path pdf_path : path) (text : str) :
  canvas_filename (render jsf_path pdf_path text) = pdf_path.
Proof. unfold render. simpl. now rewrite fold_draw_filename. Qed.

(** C10. Whatever the text and the width, no segment [wrap_lines] yields
    holds a line boundary, and each is a run of consecutive characters of one
    source line; [render] draws one string for the title and one for each
    segment. *)
Theorem wrap_lines_no_linebreak (text : str) (max_chars : Z) (n : nat)
    (jsf_path pdf_path : path) :
  Forall (fun seg =>
            no_linebreak seg
            /\ exists line pre post,
                 line ∈ source_lines text /\ line = pre ++ seg ++ post)
    (take_yields n (wrap_lines text max_chars))
  /\ drawn_texts (render jsf_path pdf_path text)
     = (lit "Source: " ++ path_name jsf_path) :: segments (wrap_lines text 100).
Proof.
  split.
  - apply (take_yields_Forall
             (fun g => forall l, l ∈ gen_source g -> l ∈ source_lines text)).
    + intros g seg g' Hg Hnext.
      destruct (next_step _ _ _ Hnext) as (_ & Hsrc & _ & line & Hin & Hpart & _).
      split; [|intros l Hl; apply Hg, Hsrc, Hl].
      apply Hg in Hin. split.
      * apply (part_of_no_linebreak line); [|assumption].
        pose proof (source_lines_no_linebreak text) as Hall.
        rewrite Forall_forall in Hall. now apply Hall.
      * destruct (part_of_contiguous _ _ Hpart) as (pre & post & Heq).
        now exists line, pre, post.
    + intros l Hl. exact Hl.
  - unfold render. simpl. rewrite fold_draw_texts. reflexivity.
Qed.

(** ** The file tree *)

Lemma entry_in_nil (ch : gmap str node) : entry_in ch [] = Some EntryDir.
Proof. reflexivity. Qed.

Lemma entry_in_cons (ch : gmap str node) (name : str) (p : path) :
  entry_in ch (name :: p)
  = match ch !! name with
    | None => None
    | Some (File data) => match p with [] => Some (EntryFile data) | _ => None end
    | Some (Dir ch') => entry_in ch' p
    end.
Proof.
  unfold entry_in. simpl. destruct (ch !! name) as [[data|ch']|]; [|reflexivity..].
  destruct p; reflexivity.
Qed.

Lemma entry_in_empty (p : path) : p <> [] -> entry_in ∅ p = None.
Proof.
  destruct p as [|name p]; [congruence|]. intros _.
  rewrite entry_in_cons, lookup_empty. reflexivity.
Qed.

Lemma entry_in_file (ch : gmap str node) (p : path) (data : bytes) :
  entry_in ch p = Some (EntryFile data) <-> find_entry ch p = inl (File data).
Proof.
  unfold entry_in. destruct (find_entry ch p) as [[d|ch']|e]; split; congruence.
Qed.

Lemma entry_in_dir (ch : gmap str node) (p : path) :
  entry_in ch p = Some EntryDir <-> exists ch', find_entry ch p = inl (Dir ch').
Proof.
  unfold entry_in. destruct (find_entry ch p) as [[d|ch']|e]; split;
    try congruence; try (intros [? ?]; congruence). intros _. now exists ch'.
Qed.

Lemma entry_in_none (ch : gmap str node) (p : path) :
  entry_in ch p = None <-> exists e, find_entry ch p = inr e.
Proof.
  unfold entry_in. destruct (find_entry ch p) as [[d|ch']|e]; split;
    try congruence; try (intros [? ?]; congruence). intros _. now exists e.
Qed.

(** The parent of a path with a name under it. *)
Lemma path_parent_cons (name name' : str) (p : path) :
  path_parent (name :: name' :: p) = name :: path_parent (name' :: p).
Proof. reflexivity. Qed.

(** Whatever is at a path, the parent of the path is a directory. *)
Lemma entry_in_parent (p : path) :
  forall ch, is_Some (entry_in ch p) -> entry_in ch (path_parent p) = Some EntryDir.
Proof.
  induction p as [|name p IH]; intros ch Hp; [reflexivity|].
  destruct p as [|name' p]; [reflexivity|].
  rewrite path_parent_cons. rewrite entry_in_cons in *.
  destruct (ch !! name) as [[data|ch']|]; [destruct Hp; discriminate | | destruct Hp; discriminate].
  now apply IH.
Qed.

(** Making directories that are there changes nothing. *)
Lemma make_dirs_same (p : path) :
  forall ch, entry_in ch p = Some EntryDir -> make_dirs ch p = inl ch.
Proof.
  induction p as [|name p IH]; intros ch Hp; [reflexivity|].
  rewrite entry_in_cons in Hp. simpl.
  destruct (ch !! name) as [[data|ch']|] eqn:Hname; [destruct p; discriminate| |discriminate].
  rewrite (IH ch' Hp). f_equal. now apply insert_id.
Qed.

Lemma prefix_cons_iff (name name' : str) (q p : path) :
  name' :: q `prefix_of` name :: p <-> name' = name /\ q `prefix_of` p.
Proof.
  split.
  - intros H. split; [now apply prefix_cons_inv_1 in H | now apply prefix_cons_inv_2 in H].
  - intros [-> H]. now apply prefix_cons.
Qed.

(** After [make_dirs], the path and what is above it are directories, and
    everything else is as before. *)
Lemma make_dirs_entries (p : path) :
  forall ch r, make_dirs ch p = inl r ->
    forall q, entry_in r q
              = if decide (q `prefix_of` p) then Some EntryDir else entry_in ch q.
Proof.
  induction p as [|name p IH]; intros ch r Hr q.
  - injection Hr as <-. destruct (decide (q `prefix_of` [])) as [Hq|Hq]; [|reflexivity].
    apply prefix_nil_inv in Hq as ->. reflexivity.
  - destruct q as [|name' q].
    { rewrite decide_True by apply prefix_nil. reflexivity. }
    simpl in Hr. rewrite !entry_in_cons.
    destruct (ch !! name) as [[data|ch']|] eqn:Hname; [discriminate| |].
    + destruct (make_dirs ch' p) as [r0|] eqn:Hr0; [|discriminate]. injection Hr as <-.
      destruct (decide (name' = name)) as [->|Hne].
      * rewrite lookup_insert_eq, Hname, (IH _ _ Hr0 q).
        destruct (decide (q `prefix_of` p)) as [Hq|Hq].
        -- rewrite decide_True by (now apply prefix_cons). reflexivity.
        -- rewrite decide_False by (rewrite prefix_cons_iff; tauto). reflexivity.
      * rewrite lookup_insert_ne by congruence.
        rewrite decide_False by (rewrite prefix_cons_iff; tauto). reflexivity.
    + destruct (make_dirs ∅ p) as [r0|] eqn:Hr0; [|discriminate]. injection Hr as <-.
      destruct (decide (name' = name)) as [->|Hne].
      * rewrite lookup_insert_eq, Hname, (IH _ _ Hr0 q).
        destruct (decide (q `prefix_of` p)) as [Hq|Hq].
        -- rewrite decide_True by (now apply prefix_cons). reflexivity.
        -- rewrite decide_False by (rewrite prefix_cons_iff; tauto).
           apply entry_in_empty. intros ->. apply Hq, prefix_nil.
      * rewrite lookup_insert_ne by congruence.
        rewrite decide_False by (rewrite prefix_cons_iff; tauto). reflexivity.
Qed.

(** [make_dirs] goes through when no regular file is at the path or above
    it, and only then. *)
Lemma make_dirs_ok (p : path) :
  forall ch, (forall q, q `prefix_of` p -> file_in ch q = None) ->
    exists r, make_dirs ch p = inl r.
Proof.
  induction p as [|name p IH]; intros ch Hfree; [now exists ch|]. simpl.
  destruct (ch !! name) as [[data|ch']|] eqn:Hname.
  - exfalso. destruct p as [|name' p].
    + specialize (Hfree [name] ltac:(reflexivity)). unfold file_in in Hfree.
      rewrite entry_in_cons, Hname in Hfree. discriminate.
    + specialize (Hfree [name] ltac:(apply prefix_cons, prefix_nil)).
      unfold file_in in Hfree. rewrite entry_in_cons, Hname in Hfree. discriminate.
  - destruct (IH ch') as [r Hr].
    + intros q Hq. specialize (Hfree (name :: q) ltac:(now apply prefix_cons)).
      unfold file_in in *. now rewrite entry_in_cons, Hname in Hfree.
    + rewrite Hr. eauto.
  - destruct (IH ∅) as [r Hr].
    + intros q Hq. unfold file_in. destruct q; [reflexivity|].
      now rewrite entry_in_empty.
    + rewrite Hr. eauto.
Qed.

Lemma make_dirs_free (p : path) :
  forall ch r, make_dirs ch p = inl r ->
    forall q, q `prefix_of` p -> file_in ch q = None.
Proof.
  induction p as [|name p IH]; intros ch r Hr q Hq.
  - apply prefix_nil_inv in Hq as ->. reflexivity.
  - destruct q as [|name' q]; [reflexivity|].
    apply prefix_cons_iff in Hq as [-> Hq]. simpl in Hr.
    unfold file_in. rewrite entry_in_cons.
    destruct (ch !! name) as [[data|ch']|] eqn:Hname; [discriminate| |reflexivity].
    destruct (make_dirs ch' p) as [r0|] eqn:Hr0; [|discriminate].
    exact (IH _ _ Hr0 q Hq).
Qed.

(** [make_dirs] changes no regular file. *)
Lemma make_dirs_files (p : path) (ch r : gmap str node) :
  make_dirs ch p = inl r -> forall q, file_in r q = file_in ch q.
Proof.
  intros Hr q. unfold file_in at 1. rewrite (make_dirs_entries _ _ _ Hr).
  destruct (decide (q `prefix_of` p)) as [Hq|Hq]; [|reflexivity].
  symmetry. exact (make_dirs_free _ _ _ Hr q Hq).
Qed.

(** After [write_entry], the file is at the path and everything else is as
    before. *)
Lemma write_entry_entries (p : path) (data : bytes) :
  forall ch r, write_entry ch p data = inl r ->
    forall q, entry_in r q
              = if decide (q = p) then Some (EntryFile data) else entry_in ch q.
Proof.
  induction p as [|name p IH]; intros ch r Hr q; [discriminate|].
  destruct q as [|name' q].
  { rewrite decide_False by discriminate. reflexivity. }
  rewrite !entry_in_cons. simpl in Hr.
  destruct p as [|name2 p].
  - assert (r = <[name := File data]> ch
            /\ forall ch', ch !! name <> Some (Dir ch')) as [-> Hnodir].
    { destruct (ch !! name) as [[d|ch']|]; [|discriminate|];
        injection Hr as <-; split; congruence. }
    destruct (decide (name' = name)) as [->|Hne].
    + rewrite lookup_insert_eq. destruct q as [|name3 q].
      * rewrite decide_True by reflexivity. reflexivity.
      * rewrite decide_False by discriminate.
        destruct (ch !! name) as [[d|ch']|] eqn:Hname; [reflexivity| |reflexivity].
        now destruct (Hnodir ch').
    + rewrite lookup_insert_ne by congruence.
      rewrite decide_False by congruence. reflexivity.
  - destruct (ch !! name) as [[d|ch']|] eqn:Hname; [discriminate| |discriminate].
    destruct (write_entry ch' (name2 :: p) data) as [r0|] eqn:Hr0; [|discriminate].
    injection Hr as <-.
    destruct (decide (name' = name)) as [->|Hne].
    + rewrite lookup_insert_eq, Hname, (IH _ _ Hr0 q).
      repeat case_decide; congruence.
    + rewrite lookup_insert_ne by congruence.
      case_decide; congruence.
Qed.

(** A file can be written in a directory that is there, at a path that is
    not a directory. *)
Lemma write_entry_ok (p : path) (data : bytes) :
  forall ch, entry_in ch (path_parent p) = Some EntryDir ->
    entry_in ch p <> Some EntryDir ->
    exists r, write_entry ch p data = inl r.
Proof.
  induction p as [|name p IH]; intros ch Hparent Hnodir; [now destruct Hnodir|].
  simpl. destruct p as [|name2 p].
  - rewrite entry_in_cons in Hnodir.
    destruct (ch !! name) as [[d|ch']|]; eauto. now destruct Hnodir.
  - rewrite path_parent_cons, entry_in_cons in Hparent.
    rewrite entry_in_cons in Hnodir.
    destruct (ch !! name) as [[d|ch']|]; [destruct (path_parent (name2 :: p)); discriminate| |discriminate].
    destruct (IH ch' Hparent Hnodir) as [r Hr]. rewrite Hr. eauto.
Qed.

Lemma path_parent_not_prefix (p : path) : p <> [] -> ~ p `prefix_of` path_parent p.
Proof.
  intros Hp Hpre. apply prefix_length in Hpre.
  unfold path_parent in Hpre. destruct p as [|name p]; [congruence|].
  assert (forall (l : path) x, length (removelast (x :: l)) = length l) as Hlen.
  { induction l as [|y l IHl]; intros x; [reflexivity|].
    change (removelast (x :: y :: l)) with (x :: removelast (y :: l)).
    cbn [length]. f_equal. apply IHl. }
  rewrite Hlen in Hpre. simpl in Hpre. lia.
Qed.

Lemma file_at_find (w : world) (p : path) (data : bytes) :
  file_at w p = Some data <-> find_entry (root w) p = inl (File data).
Proof.
  unfold file_at, file_in. rewrite <- entry_in_file.
  destruct (entry_in (root w) p) as [[d|]|]; split; congruence.
Qed.

(** At a writable path the directories can be made and the file written,
    and the tree is then as [written] says. *)
Lemma write_under (w : world) (p : path) (data : bytes) :
  writable w p ->
  exists r1 r2,
    make_dirs (root w) (path_parent p) = inl r1
    /\ write_entry r1 p data = inl r2
    /\ forall q, entry_in r2 q = written w p data q.
Proof.
  intros [Hfree Hnodir].
  destruct (make_dirs_ok (path_parent p) (root w) Hfree) as [r1 Hr1].
  assert (p <> []) as Hp by (intros ->; now apply Hnodir).
  destruct (write_entry_ok p data r1) as [r2 Hr2].
  - rewrite (make_dirs_entries _ _ _ Hr1). now rewrite decide_True.
  - rewrite (make_dirs_entries _ _ _ Hr1).
    rewrite decide_False by (now apply path_parent_not_prefix). exact Hnodir.
  - exists r1, r2. split; [assumption|]. split; [assumption|].
    intros q. rewrite (write_entry_entries _ _ _ _ Hr2). unfold written.
    destruct (decide (q = p)); [reflexivity|].
    apply (make_dirs_entries _ _ _ Hr1).
Qed.

(** ** [convert] and [main] *)

Section ProgramProperties.
Context {rt : Runtime}.

(** The loop returns the first decoding that succeeds. *)
Lemma try_encodings_first (encodings : list encoding) (data : bytes) (text : str) :
  try_encodings encodings data = Some text ->
  exists pre enc post,
    encodings = pre ++ enc :: post
    /\ Forall (fun e => decode e data = None) pre
    /\ decode enc data = Some text.
Proof.
  induction encodings as [|enc rest IH]; simpl; [discriminate|].
  destruct (decode enc data) as [t|] eqn:Hdec.
  - intros [= <-]. exists [], enc, rest. repeat split; [constructor | assumption].
  - intros Hrest. destruct (IH Hrest) as (pre & enc' & post & -> & Hpre & Henc).
    exists (enc :: pre), enc', post. repeat split; [constructor|]; assumption.
Qed.

(** C2. The encodings are tried in the order UTF-8 with signature, UTF-16,
    Latin-1; the text is the first decoding that succeeds; Latin-1 succeeds
    on every byte string, so the loop always leaves a text and the fallback
    of line 51 is never taken. *)
Theorem decode_text_no_fallback (data : bytes) :
  ENCODINGS = [Utf8Sig; Utf16; Latin1]
  /\ try_encodings ENCODINGS data = Some (decode_text data)
  /\ (exists pre enc post,
        ENCODINGS = pre ++ enc :: post
        /\ Forall (fun e => decode e data = None) pre
        /\ decode enc data = Some (decode_text data))
  /\ decode Latin1 data = Some (decode_latin_1 data)
  /\ length (decode_latin_1 data) = length data.
Proof.
  assert (try_encodings ENCODINGS data = Some (decode_text data)) as Hloop.
  { unfold decode_text. simpl.
    destruct (decode_utf_8_sig data); [reflexivity|].
    destruct (decode_utf_16 data); reflexivity. }
  split; [reflexivity|]. split; [exact Hloop|].
  split; [exact (try_encodings_first _ _ _ Hloop)|].
  split; [reflexivity|]. unfold decode_latin_1. apply length_map.
Qed.

(** What [convert] does, case by case. *)
Lemma convert_cases (jsf_path pdf_path : path) (w : world) :
  convert jsf_path pdf_path w =
    match find_entry (root w) jsf_path with
    | inr _ =>
        (Raise (FileNotFoundError (lit "Missing input: " ++ path_str jsf_path)),
         mkWorld (root w) (stderr w) (trace w ++ [EvExists jsf_path]))
    | inl (Dir _) =>
        (Raise (os_error EISDIR jsf_path),
         mkWorld (root w) (stderr w)
           (trace w ++ [EvExists jsf_path; EvReadBytes jsf_path]))
    | inl (File data) =>
        match make_dirs (root w) (path_parent pdf_path) with
        | inr e =>
            (Raise (os_error e (path_parent pdf_path)),
             mkWorld (root w) (stderr w)
               (trace w ++ [EvExists jsf_path; EvReadBytes jsf_path;
                            EvMkdir (path_parent pdf_path)]))
        | inl r1 =>
            if startswith data PDF_SIGNATURE then
              if decide (jsf_path = pdf_path) then
                (Raise (SameFileError (same_file_message jsf_path pdf_path)),
                 mkWorld r1 (stderr w)
                   (trace w ++ [EvExists jsf_path; EvReadBytes jsf_path;
                                EvMkdir (path_parent pdf_path);
                                EvCopyFile jsf_path pdf_path]))
              else
                match write_entry r1 pdf_path data with
                | inl r2 =>
                    (Return tt,
                     mkWorld r2 (stderr w)
                       (trace w ++ [EvExists jsf_path; EvReadBytes jsf_path;
                                    EvMkdir (path_parent pdf_path);
                                    EvCopyFile jsf_path pdf_path]))
                | inr e =>
                    (Raise (os_error e pdf_path),
                     mkWorld r1 (stderr w)
                       (trace w ++ [EvExists jsf_path; EvReadBytes jsf_path;
                                    EvMkdir (path_parent pdf_path);
                                    EvCopyFile jsf_path pdf_path]))
                end
            else
              match write_entry r1 pdf_path
                      (pdf_bytes (render jsf_path pdf_path (decode_text data))) with
              | inl r2 =>
                  (Return tt,
                   mkWorld r2 (stderr w)
                     (trace w ++ [EvExists jsf_path; EvReadBytes jsf_path;
                                  EvMkdir (path_parent pdf_path); EvSave pdf_path]))
              | inr e =>
                  (Raise (os_error e pdf_path),
                   mkWorld r1 (stderr w)
                     (trace w ++ [EvExists jsf_path; EvReadBytes jsf_path;
                                  EvMkdir (path_parent pdf_path); EvSave pdf_path]))
              end
        end
    end.
Proof.
  run_program.
  destruct (find_entry (root w) jsf_path) as [[data|ch]|e] eqn:Hfind;
    simp_program; repeat (rewrite Hfind; simp_program);
    [ | rewrite <- !app_assoc; reflexivity | reflexivity ].
  destruct (startswith data PDF_SIGNATURE); simp_program.
  - destruct (make_dirs (root w) (path_parent pdf_path)) as [r1|e] eqn:Hmk;
      simp_program; [ | rewrite <- !app_assoc; reflexivity ].
    assert (find_entry r1 jsf_path = inl (File data)) as Hstill.
    { apply entry_in_file. apply entry_in_file in Hfind.
      pose proof (make_dirs_files _ _ _ Hmk jsf_path) as Hsame.
      unfold file_in in Hsame. rewrite Hfind in Hsame.
      destruct (entry_in r1 jsf_path) as [[d|]|]; congruence. }
    rewrite Hstill.
    destruct (decide (jsf_path = pdf_path)) as [Heq|Hne].
    + rewrite bool_decide_eq_true_2 by assumption. simp_program.
      rewrite <- !app_assoc. reflexivity.
    + rewrite bool_decide_eq_false_2 by assumption. simp_program.
      rewrite Hstill. simp_program.
      destruct (write_entry r1 pdf_path data); simp_program;
        rewrite <- !app_assoc; reflexivity.
  - destruct (make_dirs (root w) (path_parent pdf_path)) as [r1|e] eqn:Hmk;
      simp_program; [ | rewrite <- !app_assoc; reflexivity ].
    rewrite render_filename.
    destruct (write_entry r1 pdf_path _); simp_program;
      rewrite <- !app_assoc; reflexivity.
Qed.

(** What [main] does with two arguments that resolve. *)
Lemma main_two_arguments (prog arg1 arg2 : str) (jsf_path pdf_path : path) (w : world) :
  resolve arg1 = Some jsf_path -> resolve arg2 = Some pdf_path ->
  main [prog; arg1; arg2] w =
    match convert jsf_path pdf_path
            (mkWorld (root w) (stderr w)
               (trace w ++ [EvResolve arg1; EvResolve arg2])) with
    | (Return _, w') => (Return 0, w')
    | (Raise exc, w') =>
        (Return 1,
         mkWorld (root w')
           (stderr w' ++ [lit "Conversion failed: " ++ exn_str exc]) (trace w'))
    end.
Proof.
  intros H1 H2. unfold main.
  change (negb (len [prog; arg1; arg2] =? 3)) with false. cbv iota.
  unfold resolve_path, try_except, bind, ret, log, eprint. cbn [nth].
  rewrite H1. cbn [root stderr trace]. rewrite H2. cbn [root stderr trace].
  rewrite <- app_assoc. cbn [app].
  destruct (convert _ _ _) as [[[]|exc] w']; reflexivity.
Qed.



(** C7. With any number of arguments other than two, [main] prints the
    usage message to the error stream and returns 1; the file tree and the
    trace of file-system accesses are as they were. *)
Theorem main_usage (argv : list str) (w : world) :
  length argv <> 3%nat ->
  main argv w = (Return 1, mkWorld (root w) (stderr w ++ [USAGE]) (trace w)).
Proof.
  intros Hargs. unfold main.
  destruct (Z.eqb_spec (len argv) 3) as [Heq|_]; [unfold len in Heq; lia|].
  reflexivity.
Qed.

(** C6. When nothing is at the input path, neither a file nor a
    directory, [convert] raises [FileNotFoundError] with the message
    [Missing input: <path>] after one existence test and nothing else; when
    both arguments resolve, [main] prints it after [Conversion failed: ]
    and returns 1; no file is read, created or changed. *)
Theorem convert_missing_input (jsf_path pdf_path : path) (w : world) :
  entry_at w jsf_path = None ->
  convert jsf_path pdf_path w
    = (Raise (FileNotFoundError (lit "Missing input: " ++ path_str jsf_path)),
       mkWorld (root w) (stderr w) (trace w ++ [EvExists jsf_path]))
  /\ forall prog arg1 arg2 : str,
       resolve arg1 = Some jsf_path ->
       resolve arg2 = Some pdf_path ->
       main [prog; arg1; arg2] w
       = (Return 1,
          mkWorld (root w)
            (stderr w ++ [lit "Conversion failed: " ++ lit "Missing input: "
                          ++ path_str jsf_path])
            (trace w ++ [EvResolve arg1; EvResolve arg2; EvExists jsf_path])).
Proof.
  intros Hmissing. apply entry_in_none in Hmissing as [e Hfind].
  assert (forall w0, root w0 = root w ->
            convert jsf_path pdf_path w0
            = (Raise (FileNotFoundError (lit "Missing input: " ++ path_str jsf_path)),
               mkWorld (root w0) (stderr w0) (trace w0 ++ [EvExists jsf_path])))
    as Hconvert.
  { intros w0 Hroot. rewrite convert_cases, Hroot, Hfind. reflexivity. }
  split; [now apply Hconvert|].
  intros prog arg1 arg2 H1 H2.
  rewrite (main_two_arguments _ _ _ _ _ _ H1 H2), Hconvert by reflexivity.
  cbn [root stderr trace exn_str]. rewrite <- app_assoc. reflexivity.
Qed.

(** C1, as the code has it. When the input is a regular file that starts
    with [%PDF-] and the output path is another path where a file can be
    written (no regular file at its parent or above, no directory at the
    path itself), [convert] tests, reads, makes the parent directory and
    copies: it returns normally, the output path then holds exactly the
    bytes of the input, the input is as it was, the rest of the tree is
    unchanged but for the directories made, and nothing was decoded or
    rendered (the trace has no [save]). *)
Theorem convert_pdf_passthrough (jsf_path pdf_path : path) (data : bytes) (w : world) :
  file_at w jsf_path = Some data ->
  startswith data PDF_SIGNATURE = true ->
  jsf_path <> pdf_path ->
  writable w pdf_path ->
  exists w',
    convert jsf_path pdf_path w = (Return tt, w')
    /\ file_at w' pdf_path = Some data
    /\ file_at w' jsf_path = Some data
    /\ (forall q, entry_at w' q = written w pdf_path data q)
    /\ stderr w' = stderr w
    /\ trace w'
       = trace w ++ [EvExists jsf_path; EvReadBytes jsf_path;
                     EvMkdir (path_parent pdf_path);
                     EvCopyFile jsf_path pdf_path].
Proof.
  intros Hfile Hsig Hne Hwritable.
  destruct (write_under w pdf_path data Hwritable) as (r1 & r2 & Hr1 & Hr2 & Hview).
  eexists. split.
  { rewrite convert_cases.
    rewrite (proj1 (file_at_find _ _ _) Hfile), Hr1, Hsig.
    rewrite decide_False by assumption. rewrite Hr2. reflexivity. }
  assert (forall q, entry_at (mkWorld r2 (stderr w)
                      (trace w ++ [EvExists jsf_path; EvReadBytes jsf_path;
                                   EvMkdir (path_parent pdf_path);
                                   EvCopyFile jsf_path pdf_path])) q
                    = written w pdf_path data q) as Hview' by exact Hview.
  split; [|split; [|split; [exact Hview' | split; reflexivity]]].
  - unfold file_at, file_in. fold (entry_at (mkWorld r2 (stderr w)
                      (trace w ++ [EvExists jsf_path; EvReadBytes jsf_path;
                                   EvMkdir (path_parent pdf_path);
                                   EvCopyFile jsf_path pdf_path])) pdf_path).
    rewrite Hview'. unfold written. now rewrite decide_True.
  - unfold file_at, file_in. fold (entry_at (mkWorld r2 (stderr w)
                      (trace w ++ [EvExists jsf_path; EvReadBytes jsf_path;
                                   EvMkdir (path_parent pdf_path);
                                   EvCopyFile jsf_path pdf_path])) jsf_path).
    rewrite Hview'. unfold written. rewrite decide_False by assumption.
    destruct Hwritable as [Hfree _].
    destruct (decide (jsf_path `prefix_of` path_parent pdf_path)) as [Hpre|_].
    + rewrite (Hfree _ Hpre) in Hfile. discriminate.
    + exact Hfile.
Qed.

(** C8. The empty text gives exactly one segment, the empty string, for any
    width that is not negative; so [render] makes one page with the title
    and an empty string under it, and [convert] saves that page for an
    input of zero bytes (which UTF-8 decodes to the empty text) at any
    output path where a file can be written. *)
Theorem empty_text_one_segment (max_chars : Z) (jsf_path pdf_path : path) (w : world) :
  0 <= max_chars ->
  list_gen 2 (wrap_lines [] max_chars) = Some [[]]
  /\ segments (wrap_lines [] 100) = [[]]
  /\ pages (render jsf_path pdf_path [])
     = [[(72, 720, lit "Source: " ++ path_name jsf_path); (72, 692, [])]]
  /\ (file_at w jsf_path = Some ([] : bytes) ->
      decode_utf_8_sig [] = Some [] ->
      writable w pdf_path ->
      exists w',
        convert jsf_path pdf_path w = (Return tt, w')
        /\ (forall q, entry_at w' q
                      = written w pdf_path (pdf_bytes (render jsf_path pdf_path [])) q)
        /\ stderr w' = stderr w
        /\ trace w'
           = trace w ++ [EvExists jsf_path; EvReadBytes jsf_path;
                         EvMkdir (path_parent pdf_path); EvSave pdf_path]).
Proof.
  intros Hmax. split.
  { simpl. unfold next; simpl.
    destruct (Z.leb_spec (len (@nil N)) max_chars) as [_|Hneg];
      [reflexivity | unfold len in Hneg; simpl in Hneg; lia]. }
  split; [reflexivity|]. split; [reflexivity|].
  intros Hfile Hdec Hwritable.
  destruct (write_under w pdf_path (pdf_bytes (render jsf_path pdf_path []))
              Hwritable) as (r1 & r2 & Hr1 & Hr2 & Hview).
  eexists. split.
  { rewrite convert_cases.
    rewrite (proj1 (file_at_find _ _ _) Hfile), Hr1.
    change (startswith [] PDF_SIGNATURE) with false. cbv iota.
    assert (decode_text [] = []) as ->
      by (unfold decode_text; simpl; now rewrite Hdec).
    rewrite Hr2. reflexivity. }
  split; [exact Hview|]. split; reflexivity.
Qed.

(** X10 *)
End ProgramProperties.

(** ** The claims at concrete inputs *)

Lemma main_usage_witness :
  @main Sample.runtime [lit "converter.py"; lit "notes.jsf"] (mkWorld ∅ [] [])
  = (Return 1, mkWorld ∅ [USAGE] []).
Proof.
  apply (@main_usage Sample.runtime [lit "converter.py"; lit "notes.jsf"]
           (mkWorld ∅ [] [])).
  simpl. lia.
Defined.

Lemma convert_missing_input_witness :
  @convert Sample.runtime [lit "notes.jsf"] [lit "out"; lit "notes.pdf"]
      (mkWorld ∅ [] [])
    = (Raise (FileNotFoundError (lit "Missing input: " ++ path_str [lit "notes.jsf"])),
       mkWorld ∅ [] [EvExists [lit "notes.jsf"]])
  /\ forall prog arg1 arg2 : str,
       @resolve Sample.runtime arg1 = Some [lit "notes.jsf"] ->
       @resolve Sample.runtime arg2 = Some [lit "out"; lit "notes.pdf"] ->
       @main Sample.runtime [prog; arg1; arg2] (mkWorld ∅ [] [])
       = (Return 1,
          mkWorld ∅
            [lit "Conversion failed: " ++ lit "Missing input: "
             ++ path_str [lit "notes.jsf"]]
            [EvResolve arg1; EvResolve arg2; EvExists [lit "notes.jsf"]]).
Proof.
  apply (@convert_missing_input Sample.runtime [lit "notes.jsf"]
           [lit "out"; lit "notes.pdf"] (mkWorld ∅ [] [])).
  reflexivity.
Defined.

(** The output in a directory that is not there yet, beside the input. *)
Lemma convert_pdf_passthrough_witness :
  exists w',
    @convert Sample.runtime [lit "in.jsf"] [lit "out"; lit "in.pdf"]
      (Sample.one_file [lit "in.jsf"] (PDF_SIGNATURE ++ [x31; x2e; x34]))
    = (Return tt, w')
    /\ file_at w' [lit "out"; lit "in.pdf"] = Some (PDF_SIGNATURE ++ [x31; x2e; x34])
    /\ file_at w' [lit "in.jsf"] = Some (PDF_SIGNATURE ++ [x31; x2e; x34])
    /\ (forall q,
          entry_at w' q
          = written (Sample.one_file [lit "in.jsf"] (PDF_SIGNATURE ++ [x31; x2e; x34]))
              [lit "out"; lit "in.pdf"] (PDF_SIGNATURE ++ [x31; x2e; x34]) q)
    /\ stderr w'
       = stderr (Sample.one_file [lit "in.jsf"] (PDF_SIGNATURE ++ [x31; x2e; x34]))
    /\ trace w'
       = trace (Sample.one_file [lit "in.jsf"] (PDF_SIGNATURE ++ [x31; x2e; x34]))
         ++ [EvExists [lit "in.jsf"]; EvReadBytes [lit "in.jsf"];
             EvMkdir (path_parent [lit "out"; lit "in.pdf"]);
             EvCopyFile [lit "in.jsf"] [lit "out"; lit "in.pdf"]].
Proof.
  apply (@convert_pdf_passthrough Sample.runtime [lit "in.jsf"]
           [lit "out"; lit "in.pdf"] (PDF_SIGNATURE ++ [x31; x2e; x34])
           (Sample.one_file [lit "in.jsf"] (PDF_SIGNATURE ++ [x31; x2e; x34]))).
  - reflexivity.
  - reflexivity.
  - discriminate.
  - split; [|discriminate].
    intros q Hq. destruct q as [|name q]; [reflexivity|].
    apply prefix_cons_iff in Hq as [-> Hq]. apply prefix_nil_inv in Hq as ->.
    reflexivity.
Defined.

(** C1, as stated, fails: with the output asked for below the input file,
    [mkdir] finds the input where it needs a directory and raises
    [FileExistsError]; nothing is copied and no output file exists. *)
Lemma convert_pdf_below_input :
  fst (@convert Sample.runtime [lit "in.pdf"] [lit "in.pdf"; lit "out.pdf"]
         (Sample.one_file [lit "in.pdf"] PDF_SIGNATURE))
  = Raise (FileExistsError (@os_error_message Sample.runtime EEXIST [lit "in.pdf"]))
  /\ file_at (snd (@convert Sample.runtime [lit "in.pdf"] [lit "in.pdf"; lit "out.pdf"]
                     (Sample.one_file [lit "in.pdf"] PDF_SIGNATURE)))
       [lit "in.pdf"; lit "out.pdf"]
     = None.
Proof. split; reflexivity. Qed.

Lemma empty_text_one_segment_witness :
  list_gen 2 (wrap_lines [] 100) = Some [[]]
  /\ segments (wrap_lines [] 100) = [[]]
  /\ pages (render [lit "empty.jsf"] [lit "empty.pdf"] [])
     = [[(72, 720, lit "Source: " ++ path_name [lit "empty.jsf"]); (72, 692, [])]]
  /\ exists w',
       @convert Sample.runtime [lit "empty.jsf"] [lit "empty.pdf"]
         (Sample.one_file [lit "empty.jsf"] [])
       = (Return tt, w')
       /\ (forall q,
             entry_at w' q
             = written (Sample.one_file [lit "empty.jsf"] []) [lit "empty.pdf"]
                 (@pdf_bytes Sample.runtime
                    (render [lit "empty.jsf"] [lit "empty.pdf"] [])) q)
       /\ stderr w' = stderr (Sample.one_file [lit "empty.jsf"] [])
       /\ trace w'
          = trace (Sample.one_file [lit "empty.jsf"] [])
            ++ [EvExists [lit "empty.jsf"]; EvReadBytes [lit "empty.jsf"];
                EvMkdir (path_parent [lit "empty.pdf"]); EvSave [lit "empty.pdf"]].
Proof.
  destruct (@empty_text_one_segment Sample.runtime 100 [lit "empty.jsf"]
              [lit "empty.pdf"] (Sample.one_file [lit "empty.jsf"] []))
    as (Hone & Hsegments & Hpages & Hconvert); [lia|].
  split; [exact Hone|]. split; [exact Hsegments|]. split; [exact Hpages|].
  apply Hconvert.
  - reflexivity.
  - reflexivity.
  - split; [|discriminate].
    intros q Hq. apply prefix_nil_inv in Hq as ->. reflexivity.
Defined.

(** Bytes that are neither UTF-8 nor UTF-16 come out through Latin-1. *)
Example decode_text_latin_1 :
  @decode_text Sample.runtime [xff; x41; x42] = [255; 65; 66]%N.
Proof. reflexivity. Qed.

(** A hundred empty lines under the title take three pages: 45 lines fit
    under the title, 47 on a page of their own. *)
Example render_three_pages :
  map length (pages (render [lit "in.jsf"] [lit "out.pdf"] (repeat 10%N 100)))
  = [46; 47; 8]%nat.
Proof. vm_compute. reflexivity. Qed.

(** A negative width on an empty line yields nothing at all. *)
Example wrap_lines_negative_width :
  list_gen 1 (wrap_lines [] (-1)) = Some [].
Proof. reflexivity. Qed.

(* ================================================================= *)
(** * Further properties *)

(** ** The generator on whole texts *)

Lemma concat_line_segments (max_chars : Z) (line : str) :
  1 <= max_chars -> concat (line_segments max_chars line) = line.
Proof.
  intros Hmax. unfold line_segments.
  destruct (len line <=? max_chars); [simpl; apply app_nil_r|].
  apply (concat_chunks _ (length line)); lia.
Qed.

Lemma concat_splitlines_from (n : nat) :
  forall s cur, (length s <= n)%nat ->
    concat (splitlines_from cur s) = cur ++ strip_linebreaks s.
Proof.
  unfold strip_linebreaks.
  induction n as [|n IH]; intros s cur Hlen.
  - destruct s; [|simpl in Hlen; lia]. simpl.
    destruct cur; simpl; now rewrite ?app_nil_r.
  - destruct s as [|c rest]; simpl.
    + destruct cur; simpl; now rewrite ?app_nil_r.
    + simpl in Hlen. destruct (is_linebreak c) eqn:Hc; simpl.
      * f_equal. destruct rest as [|c' rest']; [reflexivity|].
        destruct ((c =? 13) && (c' =? 10))%N eqn:Hcrlf.
        -- apply andb_prop in Hcrlf as [_ Hlf]. apply N.eqb_eq in Hlf. subst c'.
           simpl. rewrite IH by (simpl in Hlen; lia). reflexivity.
        -- rewrite IH by lia. reflexivity.
      * rewrite IH by lia. rewrite <- app_assoc. reflexivity.
Qed.

Lemma concat_source_lines (text : str) :
  concat (source_lines text) = strip_linebreaks text.
Proof.
  unfold source_lines, splitlines.
  pose proof (concat_splitlines_from (length text) text [] (le_n _)) as H.
  destruct (splitlines_from [] text); [|exact H].
  simpl in *. exact H.
Qed.

Lemma concat_map_line_segments (max_chars : Z) (lines : list str) :
  1 <= max_chars ->
  concat (concat (map (line_segments max_chars) lines)) = concat lines.
Proof.
  intros Hmax. induction lines as [|line rest IH]; [reflexivity|].
  simpl. rewrite concat_app, IH, concat_line_segments by assumption. reflexivity.
Qed.

(** X1. With a width of at least 1, [wrap_lines] yields, for the source
    lines in order, each line that fits unchanged and the chunks of each
    line that does not, and then stops. *)
Theorem wrap_lines_all_lines (text : str) (max_chars : Z) :
  1 <= max_chars ->
  list_gen (gen_budget (wrap_lines text max_chars)) (wrap_lines text max_chars)
  = Some (concat (map (line_segments max_chars) (source_lines text))).
Proof.
  intros Hmax. rewrite list_gen_budget by assumption.
  now rewrite wrap_lines_refines.
Qed.

Lemma wrap_lines_all_lines_witness :
  list_gen (gen_budget (wrap_lines (lit "ab" ++ 10%N :: lit "cdefgh") 4))
    (wrap_lines (lit "ab" ++ 10%N :: lit "cdefgh") 4)
  = Some (concat (map (line_segments 4)
                    (source_lines (lit "ab" ++ 10%N :: lit "cdefgh")))).
Proof. apply (wrap_lines_all_lines (lit "ab" ++ 10%N :: lit "cdefgh") 4). lia. Defined.

(** X2. With a width of at least 1, wrapping loses and reorders nothing:
    the segments put end to end are the text without its line
    boundaries. *)
Theorem wrap_lines_preserves_text (text : str) (max_chars : Z) :
  1 <= max_chars ->
  concat (segments (wrap_lines text max_chars)) = strip_linebreaks text.
Proof.
  intros Hmax. rewrite wrap_lines_refines by assumption.
  rewrite concat_map_line_segments by assumption.
  apply concat_source_lines.
Qed.

Lemma wrap_lines_preserves_text_witness :
  concat (segments (wrap_lines (lit "ab" ++ 10%N :: lit "cdefgh") 4))
  = strip_linebreaks (lit "ab" ++ 10%N :: lit "cdefgh").
Proof.
  apply (wrap_lines_preserves_text (lit "ab" ++ 10%N :: lit "cdefgh") 4). lia.
Defined.

(** ** When the generator stops *)

(** With a width below 1, the [while] loop entered with [start] inside the
    line never leaves it. *)
Lemma list_gen_while_stuck (max_chars : Z) (lines : list str) (line : str) :
  max_chars <= 0 ->
  forall (fuel : nat) (start : Z), start < len line ->
    list_gen fuel (Generator max_chars lines (Some (line, start))) = None.
Proof.
  intros Hmax. induction fuel as [|fuel IH]; intros start Hstart; [reflexivity|].
  simpl. unfold next, while_turn; simpl.
  destruct (Z.ltb_spec start (len line)); [|lia].
  rewrite IH by lia. reflexivity.
Qed.

Lemma list_gen_lines_stuck (max_chars : Z) (lines : list str) :
  max_chars <= 0 -> Exists (fun l => l <> []) lines ->
  forall fuel, list_gen fuel (Generator max_chars lines None) = None.
Proof.
  intros Hmax. induction lines as [|line rest IH]; intros Hex fuel.
  - inversion Hex.
  - destruct fuel as [|fuel]; [reflexivity|].
    assert (line = [] -> Exists (fun l => l <> []) rest) as Hrest.
    { intros ->. inversion Hex; [congruence | assumption]. }
    simpl. unfold next; simpl.
    destruct (Z.leb_spec (len line) max_chars) as [Hfit|Hlong].
    + assert (line = []) as Hnil
        by (destruct line; [reflexivity | unfold len in Hfit; simpl in Hfit; lia]).
      rewrite (IH (Hrest Hnil) fuel). reflexivity.
    + unfold while_turn. destruct (Z.ltb_spec 0 (len line)) as [Hpos|Hzero].
      * rewrite list_gen_while_stuck by lia. reflexivity.
      * assert (line = []) as Hnil
          by (destruct line; [reflexivity | unfold len in Hzero; simpl in Hzero; lia]).
        exact (IH (Hrest Hnil) (S fuel)).
Qed.

(** Empty lines are yielded as they are when the width is not negative, and
    skipped when it is. *)
Lemma drains_empty_lines (max_chars : Z) (lines : list str) :
  Forall (fun l => l = []) lines ->
  drains (Generator max_chars lines None) (if 0 <=? max_chars then lines else []).
Proof.
  induction 1 as [|line rest -> _ IH].
  - destruct (0 <=? max_chars); now apply drains_stop.
  - destruct (Z.leb_spec 0 max_chars) as [Hpos|Hneg].
    + eapply drains_yield; [|exact IH]. unfold next; simpl.
      destruct (Z.leb_spec (len (@nil N)) max_chars) as [_|Hbad];
        [reflexivity | unfold len in Hbad; simpl in Hbad; lia].
    + apply (drains_next_eq _ (Generator max_chars rest None)); [|exact IH].
      unfold next; simpl.
      destruct (Z.leb_spec (len (@nil N)) max_chars) as [Hbad|_];
        [unfold len in Hbad; simpl in Hbad; lia | reflexivity].
Qed.

(** X3. [wrap_lines] stops exactly when the width is at least 1 or every
    source line is empty: any other call yields segments for ever. *)
Theorem wrap_lines_finite_iff (text : str) (max_chars : Z) :
  finite (wrap_lines text max_chars)
  <-> 1 <= max_chars \/ Forall (fun l => l = []) (source_lines text).
Proof.
  split.
  - intros (fuel & segs & Hrun).
    destruct (Z_le_gt_dec 1 max_chars) as [Hmax|Hmax]; [now left|]. right.
    destruct (Forall_Exists_dec (fun l : str => l = []) (fun l : str => l <> [])
                (fun l => decide (l = [])) (source_lines text))
      as [Hall|Hex]; [assumption|].
    unfold wrap_lines in Hrun.
    rewrite list_gen_lines_stuck in Hrun; [discriminate | lia | exact Hex].
  - intros [Hmax|Hall].
    + eexists _, _. apply list_gen_budget. exact Hmax.
    + eexists _, _. apply drains_list_gen. now apply drains_empty_lines.
Qed.

(** X4. When no source line is longer than the width, [wrap_lines] yields
    exactly the source lines, one segment each, and stops: nothing is
    wrapped. *)
Theorem wrap_lines_short_lines (text : str) (max_chars : Z) :
  Forall (fun l => len l <= max_chars) (source_lines text) ->
  list_gen (S (length (source_lines text))) (wrap_lines text max_chars)
  = Some (source_lines text).
Proof.
  intros Hshort. apply drains_list_gen. unfold wrap_lines.
  induction Hshort as [|line rest Hfit _ IH]; [now apply drains_stop|].
  eapply drains_yield; [|exact IH]. unfold next; simpl.
  destruct (Z.leb_spec (len line) max_chars); [reflexivity | lia].
Qed.

Lemma wrap_lines_short_lines_witness :
  list_gen (S (length (source_lines (lit "ab" ++ 10%N :: lit "cd"))))
    (wrap_lines (lit "ab" ++ 10%N :: lit "cd") 2)
  = Some (source_lines (lit "ab" ++ 10%N :: lit "cd")).
Proof.
  apply (wrap_lines_short_lines (lit "ab" ++ 10%N :: lit "cd") 2).
  repeat constructor; unfold len; simpl; lia.
Defined.

(** ** How many segments *)

Lemma chunks_cover (w : nat) (n : nat) :
  (0 < w)%nat -> forall l, (length l <= n)%nat ->
    (length l <= length (chunks w l) * w)%nat.
Proof.
  intros Hw. induction n as [|n IH]; intros l Hl.
  - destruct l; [simpl; lia | simpl in Hl; lia].
  - destruct l as [|c l]; [simpl; lia|].
    rewrite chunks_cons by (assumption || discriminate).
    assert (length (drop w (c :: l)) <= n)%nat as Hd
      by (rewrite length_drop; simpl in *; lia).
    specialize (IH _ Hd). rewrite length_drop in IH.
    set (k := length (chunks w (drop w (c :: l)))) in *.
    change (length (take w (c :: l) :: chunks w (drop w (c :: l)))) with (S k).
    simpl length in *. clearbody k. clear Hd. simpl. lia.
Qed.

(** A line of [L] characters gives one segment when [L] is within the width
    and otherwise [L / max_chars] rounded up. *)
Lemma line_segments_len (max_chars : Z) (line : str) :
  1 <= max_chars ->
  len (line_segments max_chars line)
  = Z.max 1 ((len line + max_chars - 1) / max_chars).
Proof.
  intros Hmax. unfold line_segments.
  destruct (Z.leb_spec (len line) max_chars) as [Hfit|Hlong].
  - change (len [line]) with 1.
    assert ((len line + max_chars - 1) / max_chars <= 1); [|lia].
    pose proof (len_nonneg line).
    apply Z.lt_succ_r. apply Z.div_lt_upper_bound; lia.
  - pose proof (chunks_length (Z.to_nat max_chars) (length line)
                  ltac:(lia) line (le_n _)) as Hup.
    pose proof (chunks_cover (Z.to_nat max_chars) (length line)
                  ltac:(lia) line (le_n _)) as Hlow.
    unfold len in *.
    set (k := length (chunks (Z.to_nat max_chars) line)) in *. clearbody k.
    assert (Z.of_nat k * max_chars < Z.of_nat (length line) + max_chars) as Hup'
      by nia.
    assert (Z.of_nat (length line) <= Z.of_nat k * max_chars) as Hlow' by nia.
    assert ((Z.of_nat (length line) + max_chars - 1) / max_chars = Z.of_nat k)
      as ->.
    { symmetry.
      apply (Z.div_unique _ _ _
               (Z.of_nat (length line) + max_chars - 1 - max_chars * Z.of_nat k));
        lia. }
    nia.
Qed.

(** X5. With a width of at least 1, the number of segments [wrap_lines]
    yields is the sum over the source lines of: 1 for a line within the
    width (an empty line too), and the length of the line divided by the
    width, rounded up, for a longer one. *)
Theorem wrap_lines_segment_count (text : str) (max_chars : Z) :
  1 <= max_chars ->
  len (segments (wrap_lines text max_chars))
  = foldr (fun line acc => Z.max 1 ((len line + max_chars - 1) / max_chars) + acc)
      0 (source_lines text).
Proof.
  intros Hmax. rewrite wrap_lines_refines by assumption.
  induction (source_lines text) as [|line rest IH]; [reflexivity|].
  simpl. rewrite <- IH, <- line_segments_len by assumption.
  unfold len. rewrite length_app. lia.
Qed.

Lemma wrap_lines_segment_count_witness :
  len (segments (wrap_lines (lit "ab" ++ 10%N :: lit "cdefgh") 4))
  = foldr (fun line acc => Z.max 1 ((len line + 4 - 1) / 4) + acc)
      0 (source_lines (lit "ab" ++ 10%N :: lit "cdefgh")).
Proof.
  apply (wrap_lines_segment_count (lit "ab" ++ 10%N :: lit "cdefgh") 4). lia.
Defined.

(** ** Pagination *)

Lemma fold_draw_calls (height : Z) (segs : list str) :
  forall doc y,
    canvas_calls (fst (fold_left (draw_segment height) segs (doc, y)))
    = canvas_calls doc ++ loop_calls height y segs.
Proof.
  induction segs as [|seg segs IH]; intros doc y; cbn [fold_left loop_calls].
  - simpl. now rewrite app_nil_r.
  - rewrite draw_segment_eq. destruct (y <=? MARGIN); rewrite IH; simpl;
      rewrite <- ?app_assoc; reflexivity.
Qed.

Lemma render_pages (jsf_path pdf_path : path) (text : str) :
  pages (render jsf_path pdf_path text)
  = pages_from [(72, 720, lit "Source: " ++ path_name jsf_path)] true
      (loop_calls 792 692 (segments (wrap_lines text 100))).
Proof.
  unfold pages, render. simpl. rewrite fold_draw_calls. reflexivity.
Qed.

(** With the cursor [j] lines above the last line of the page, the loop
    closes a page after [j] segments and then after every 47. *)
Lemma loop_calls_step (j : nat) (seg : str) (segs : list str) :
  loop_calls 792 (62 + 14 * Z.of_nat j) (seg :: segs)
  = match j with
    | O => ShowPage :: SetFont (lit "Helvetica") 11 :: DrawString 72 720 seg
             :: loop_calls 792 (62 + 14 * Z.of_nat 46) segs
    | S j' => DrawString 72 (62 + 14 * Z.of_nat j) seg
                :: loop_calls 792 (62 + 14 * Z.of_nat j') segs
    end.
Proof.
  cbn [loop_calls]. unfold MARGIN, LINE_HEIGHT. destruct j as [|j'].
  - reflexivity.
  - destruct (Z.leb_spec (62 + 14 * Z.of_nat (S j')) 72); [lia|].
    do 2 f_equal. lia.
Qed.

Lemma pages_from_loop_length (segs : list str) :
  forall (j : nat) cur,
    length (pages_from cur true (loop_calls 792 (62 + 14 * Z.of_nat j) segs))
    = S (if (length segs <=? j)%nat then 0 else S ((length segs - j - 1) / 47)).
Proof.
  induction segs as [|seg segs IH]; intros j cur; [reflexivity|].
  rewrite loop_calls_step. destruct j as [|j'].
  - cbn [pages_from length]. rewrite IH.
    change (S (length segs) <=? 0)%nat with false.
    replace (S (length segs) - 0 - 1)%nat with (length segs) by lia.
    destruct (Nat.leb_spec (length segs) 46) as [Hfew|Hmany].
    + rewrite Nat.div_small by lia. reflexivity.
    + replace (length segs) with ((length segs - 46 - 1) + 1 * 47)%nat at 2 by lia.
      rewrite Nat.div_add by lia. do 2 f_equal. lia.
  - cbn [pages_from length]. rewrite IH.
    change (S (length segs) <=? S j')%nat with (length segs <=? j')%nat.
    replace (S (length segs) - S j' - 1)%nat with (length segs - j' - 1)%nat by lia.
    reflexivity.
Qed.

Lemma pages_from_loop_ok (segs : list str) :
  forall (j : nat) cur,
    (exists s rest, cur = (72, 720, s) :: rest) ->
    (length cur + j <= 47)%nat ->
    Forall page_ok (pages_from cur true (loop_calls 792 (62 + 14 * Z.of_nat j) segs)).
Proof.
  induction segs as [|seg segs IH]; intros j cur Htop Hroom.
  - simpl. constructor; [|constructor]. split; [assumption | lia].
  - rewrite loop_calls_step. destruct j as [|j'].
    + cbn [pages_from]. constructor; [split; [assumption | lia]|].
      apply IH; [now exists seg, [] | simpl; lia].
    + cbn [pages_from]. apply IH.
      * destruct Htop as (s & rest & ->). now exists s, (rest ++ [(72, 62 + 14 * Z.of_nat (S j'), seg)]).
      * rewrite length_app. simpl. lia.
Qed.

(** X6. The saved document has one page when the text gives at most 45
    segments, and one more page for every further 47 segments or part of
    them. *)
Theorem render_page_count (jsf_path pdf_path : path) (text : str) :
  length (pages (render jsf_path pdf_path text))
  = page_count (length (segments (wrap_lines text 100))).
Proof.
  rewrite render_pages.
  change 692 with (62 + 14 * Z.of_nat 45).
  rewrite pages_from_loop_length. unfold page_count.
  destruct (length (segments (wrap_lines text 100)) <=? 45)%nat; [reflexivity|].
  replace (length (segments (wrap_lines text 100)) - 45 - 1)%nat
    with (length (segments (wrap_lines text 100)) - 46)%nat by lia.
  reflexivity.
Qed.

(** X7. Every page of the saved document begins with a string drawn at the
    top margin, (72, 720), and holds at most 47 strings. *)
Theorem render_pages_ok (jsf_path pdf_path : path) (text : str) :
  Forall page_ok (pages (render jsf_path pdf_path text)).
Proof.
  rewrite render_pages.
  change 692 with (62 + 14 * Z.of_nat 45).
  apply pages_from_loop_ok; [now eexists _, [] | simpl; lia].
Qed.

Lemma drawn_strings_draw (x y : Z) (s : str) (calls : list canvas_call) :
  drawn_strings (DrawString x y s :: calls) = (x, y, s) :: drawn_strings calls.
Proof. reflexivity. Qed.

Lemma drawn_strings_new_page (name : str) (size : Z) (calls : list canvas_call) :
  drawn_strings (ShowPage :: SetFont name size :: calls) = drawn_strings calls.
Proof. reflexivity. Qed.

Lemma drawn_strings_loop (segs : list str) :
  forall (j k : nat) (seg : str),
    segs !! k = Some seg ->
    drawn_strings (loop_calls 792 (62 + 14 * Z.of_nat j) segs) !! k
    = Some (72,
            if (k <? j)%nat then 62 + 14 * Z.of_nat (j - k)
            else 720 - 14 * Z.of_nat ((k - j) mod 47),
            seg).
Proof.
  induction segs as [|seg0 segs IH]; intros j k seg Hk; [discriminate|].
  rewrite loop_calls_step. destruct j as [|j'].
  - rewrite drawn_strings_new_page, drawn_strings_draw.
    destruct k as [|k']; simpl in Hk.
    + injection Hk as ->. reflexivity.
    + cbn [lookup list_lookup]. refine (eq_trans (IH 46%nat k' seg Hk) _).
      change (S k' <? 0)%nat with false. do 2 f_equal.
      replace (S k' - 0)%nat with (S k') by lia.
      destruct (Nat.ltb_spec k' 46) as [Hlt|Hge].
      * rewrite Nat.mod_small by lia. f_equal. lia.
      * replace (S k') with ((k' - 46) + 1 * 47)%nat by lia.
        rewrite Nat.Div0.mod_add. reflexivity.
  - rewrite drawn_strings_draw.
    destruct k as [|k']; simpl in Hk.
    + injection Hk as ->. cbn [lookup list_lookup]. reflexivity.
    + cbn [lookup list_lookup]. exact (IH j' k' seg Hk).
Qed.

Lemma render_calls (jsf_path pdf_path : path) (text : str) :
  canvas_calls (render jsf_path pdf_path text)
  = SetFont (lit "Helvetica") 11
    :: DrawString 72 720 (lit "Source: " ++ path_name jsf_path)
    :: loop_calls 792 692 (segments (wrap_lines text 100)).
Proof. unfold render. simpl. rewrite fold_draw_calls. reflexivity. Qed.

(** In the calls of the loop every [showPage] is followed by the font and
    by a string at the top margin. *)
Lemma loop_calls_new_page (segs : list str) :
  forall (y : Z) (pre post : list canvas_call),
    loop_calls 792 y segs = pre ++ ShowPage :: post ->
    exists seg post',
      post = SetFont (lit "Helvetica") 11 :: DrawString 72 720 seg :: post'.
Proof.
  induction segs as [|seg segs IH]; intros y pre post Hcalls.
  - destruct pre; discriminate.
  - cbn [loop_calls] in Hcalls. destruct (y <=? MARGIN).
    + destruct pre as [|c1 pre]; [injection Hcalls as <-; eauto|].
      destruct pre as [|c2 pre]; [discriminate|].
      destruct pre as [|c3 pre]; [discriminate|].
      injection Hcalls as _ _ _ Hrest. exact (IH _ _ _ Hrest).
    + destruct pre as [|c1 pre]; [discriminate|].
      injection Hcalls as _ Hrest. exact (IH _ _ _ Hrest).
Qed.

(** C5. The calls [render] makes on the canvas are the font, the title at
    (72, 720) and then, for the segments in order, the calls of the loop:
    with the cursor at or below the margin of 72 the page is closed by
    [showPage], the font is set again and the cursor goes back to the top
    margin, 792 - 72, before the segment is drawn; after each segment the
    cursor goes down by the line height, 14.  So every string is drawn at
    the left margin and above the bottom margin, segment [i] is drawn at
    y = 692 - 14 i among the first 45 and at 720 - 14 r, with r its rank on
    a page of 47, afterwards, and every [showPage] is followed by the font
    and by a segment at the top margin. *)
Theorem render_above_margin (jsf_path pdf_path : path) (text : str) :
  canvas_calls (render jsf_path pdf_path text)
  = SetFont (lit "Helvetica") 11
    :: DrawString 72 720 (lit "Source: " ++ path_name jsf_path)
    :: loop_calls 792 692 (segments (wrap_lines text 100))
  /\ Forall above_margin (canvas_calls (render jsf_path pdf_path text))
  /\ (forall (i : nat) (seg : str),
        segments (wrap_lines text 100) !! i = Some seg ->
        drawn_strings (canvas_calls (render jsf_path pdf_path text)) !! S i
        = Some (72,
                if (i <? 45)%nat then 692 - 14 * Z.of_nat i
                else 720 - 14 * Z.of_nat ((i - 45) mod 47),
                seg))
  /\ (forall pre post : list canvas_call,
        canvas_calls (render jsf_path pdf_path text) = pre ++ ShowPage :: post ->
        exists seg post',
          post = SetFont (lit "Helvetica") 11 :: DrawString 72 720 seg :: post')
  /\ forall (doc : Canvas) (y : Z) (segment : str),
       draw_segment 792 (doc, y) segment =
         if y <=? 72
         then (drawString (setFont (showPage doc) (lit "Helvetica") 11)
                 72 (792 - 72) segment,
               792 - 72 - 14)
         else (drawString doc 72 y segment, y - 14).
Proof.
  split; [apply render_calls|]. split.
  { unfold render. simpl. apply fold_draw_above; [reflexivity|].
    simpl. repeat constructor. }
  split.
  { intros i seg Hseg. rewrite render_calls.
    change (drawn_strings (SetFont (lit "Helvetica") 11 :: DrawString 72 720 (lit "Source: " ++ path_name jsf_path) :: loop_calls 792 692 (segments (wrap_lines text 100)))) with ((72, 720, lit "Source: " ++ path_name jsf_path) :: drawn_strings (loop_calls 792 692 (segments (wrap_lines text 100)))). cbn [lookup list_lookup].
    refine (eq_trans (drawn_strings_loop _ 45%nat i seg Hseg) _).
    destruct (Nat.ltb_spec i 45) as [Hlt|Hge]; [|reflexivity].
    replace (62 + 14 * Z.of_nat (45 - i)) with (692 - 14 * Z.of_nat i) by lia.
    reflexivity. }
  split.
  { intros pre post Hcalls. rewrite render_calls in Hcalls.
    destruct pre as [|c1 pre]; [discriminate|].
    destruct pre as [|c2 pre]; [discriminate|].
    injection Hcalls as _ _ Hrest. exact (loop_calls_new_page _ _ _ _ Hrest). }
  intros doc y segment. apply draw_segment_eq.
Qed.

(** X8. Where each segment goes: segment [i], counting from 0, is drawn at
    x = 72; at y = 692 - 14 i while it is one of the first 45, and afterwards
    at y = 720 - 14 r, where r is the rank of the segment on its page of
    47. *)
Theorem render_segment_position (jsf_path pdf_path : path) (text : str)
    (i : nat) (seg : str) :
  segments (wrap_lines text 100) !! i = Some seg ->
  drawn_strings (canvas_calls (render jsf_path pdf_path text)) !! S i
  = Some (72,
          if (i <? 45)%nat then 692 - 14 * Z.of_nat i
          else 720 - 14 * Z.of_nat ((i - 45) mod 47),
          seg).
Proof.
  intros Hseg. unfold render. simpl. rewrite fold_draw_calls.
  refine (eq_trans (drawn_strings_loop _ 45%nat i seg Hseg) _).
  destruct (Nat.ltb_spec i 45) as [Hlt|Hge]; [|reflexivity].
  replace (62 + 14 * Z.of_nat (45 - i)) with (692 - 14 * Z.of_nat i) by lia.
  reflexivity.
Qed.

Lemma render_segment_position_witness :
  drawn_strings (canvas_calls (render [lit "in.jsf"] [lit "out.pdf"] (lit "hello")))
    !! 1%nat
  = Some (72,
          if (0 <? 45)%nat then 692 - 14 * Z.of_nat 0
          else 720 - 14 * Z.of_nat ((0 - 45) mod 47),
          lit "hello").
Proof.
  apply (render_segment_position [lit "in.jsf"] [lit "out.pdf"] (lit "hello")
           0%nat (lit "hello")).
  reflexivity.
Defined.

(** ** [convert] and [main] on every input *)

Lemma startswith_prefix (data prefix : bytes) :
  startswith data prefix = true <-> exists rest, data = prefix ++ rest.
Proof.
  revert data. induction prefix as [|p prefix IH]; intros data.
  - split; [intros _; now exists data | intros _; destruct data; reflexivity].
  - destruct data as [|d data]; simpl.
    + split; [discriminate | intros (rest & Hrest); discriminate].
    + rewrite andb_true_iff, IH. split.
      * intros (Hd & rest & ->). exists rest. f_equal.
        now apply Byte.byte_dec_bl.
      * intros (rest & [= -> ->]). split; [|now exists rest].
        now apply Byte.byte_dec_lb.
Qed.

(** X9. An input is taken for a PDF exactly when it is the five bytes of
    [%PDF-] followed by anything; an input of fewer than five bytes never
    is. *)
Theorem pdf_signature_prefix (data : bytes) :
  (startswith data PDF_SIGNATURE = true
   <-> exists rest, data = [x25; x50; x44; x46; x2d] ++ rest)
  /\ ((length data < 5)%nat -> startswith data PDF_SIGNATURE = false).
Proof.
  split; [apply startswith_prefix|].
  intros Hshort. destruct (startswith data PDF_SIGNATURE) eqn:Hsig; [|reflexivity].
  apply startswith_prefix in Hsig as (rest & ->).
  rewrite length_app in Hshort. simpl in Hshort. lia.
Qed.



Section RunProperties.
Context {rt : Runtime}.

(** X10. Whatever the input, [convert] changes no regular file other than
    the one at the output path, and prints nothing. *)
Theorem convert_only_writes_output (jsf_path pdf_path other : path) (w : world) :
  other <> pdf_path ->
  file_at (snd (convert jsf_path pdf_path w)) other = file_at w other
  /\ stderr (snd (convert jsf_path pdf_path w)) = stderr w.
Proof.
  intros Hother.
  assert (forall r1 r2 data,
            make_dirs (root w) (path_parent pdf_path) = inl r1 ->
            write_entry r1 pdf_path data = inl r2 ->
            file_in r2 other = file_in (root w) other) as Hwrite.
  { intros r1 r2 data Hr1 Hr2.
    rewrite <- (make_dirs_files _ _ _ Hr1 other). unfold file_in.
    rewrite (write_entry_entries _ _ _ _ Hr2 other).
    now rewrite decide_False. }
  rewrite convert_cases. unfold file_at.
  destruct (find_entry (root w) jsf_path) as [[data|ch]|e];
    [|split; reflexivity..].
  destruct (make_dirs (root w) (path_parent pdf_path)) as [r1|e] eqn:Hr1;
    [|split; reflexivity].
  destruct (startswith data PDF_SIGNATURE).
  - destruct (decide (jsf_path = pdf_path)).
    + split; [|reflexivity]. cbn [snd root]. apply (make_dirs_files _ _ _ Hr1).
    + destruct (write_entry r1 pdf_path data) as [r2|e] eqn:Hr2;
        (split; [|reflexivity]); cbn [snd root].
      * exact (Hwrite r1 r2 _ eq_refl Hr2).
      * apply (make_dirs_files _ _ _ Hr1).
  - destruct (write_entry r1 pdf_path _) as [r2|e] eqn:Hr2;
      (split; [|reflexivity]); cbn [snd root].
    + exact (Hwrite r1 r2 _ eq_refl Hr2).
    + apply (make_dirs_files _ _ _ Hr1).
Qed.

(** X11 *)

(** X11. [convert] tests that the input exists before anything else, and
    then stops, or reads and stops (the input is a directory), or reads and
    makes the directory and stops (the directory cannot be made), or goes on
    to one copy or to one save.  It never makes a directory or writes before
    it has read, and never writes twice. *)
Theorem convert_effects_order (jsf_path pdf_path : path) (w : world) :
  exists effects,
    trace (snd (convert jsf_path pdf_path w))
    = trace w ++ EvExists jsf_path :: effects
    /\ convert_effects jsf_path pdf_path effects.
Proof.
  rewrite convert_cases.
  destruct (find_entry (root w) jsf_path) as [[data|ch]|e].
  - destruct (make_dirs (root w) (path_parent pdf_path)) as [r1|e].
    + destruct (startswith data PDF_SIGNATURE).
      * destruct (decide (jsf_path = pdf_path));
          [|destruct (write_entry r1 pdf_path data)];
          (eexists; split; [reflexivity | constructor]).
      * destruct (write_entry r1 pdf_path _);
          (eexists; split; [reflexivity | constructor]).
    + eexists; split; [reflexivity | constructor].
  - eexists; split; [reflexivity | constructor].
  - eexists; split; [reflexivity | constructor].
Qed.

(** X12 *)


(** X13 *)

(** X13. With two arguments that resolve, an input that is a regular file,
    an output path where a file can be written and, when the input is a
    PDF, an output path that is not the input itself, [main] returns 0,
    prints nothing, and leaves at the output path the input bytes for a PDF
    and the rendered document for anything else; the rest of the tree is
    unchanged but for the directories made above the output. *)
Theorem main_success (prog arg1 arg2 : str) (jsf_path pdf_path : path)
    (data : bytes) (w : world) :
  resolve arg1 = Some jsf_path ->
  resolve arg2 = Some pdf_path ->
  file_at w jsf_path = Some data ->
  writable w pdf_path ->
  startswith data PDF_SIGNATURE = false \/ jsf_path <> pdf_path ->
  exists w',
    main [prog; arg1; arg2] w = (Return 0, w')
    /\ stderr w' = stderr w
    /\ forall q,
         entry_at w' q
         = written w pdf_path
             (if startswith data PDF_SIGNATURE then data
              else pdf_bytes (render jsf_path pdf_path (decode_text data))) q.
Proof.
  intros H1 H2 Hfile Hwritable Hok.
  destruct (write_under w pdf_path
              (if startswith data PDF_SIGNATURE then data
               else pdf_bytes (render jsf_path pdf_path (decode_text data)))
              Hwritable) as (r1 & r2 & Hr1 & Hr2 & Hview).
  rewrite (main_two_arguments _ _ _ _ _ _ H1 H2), convert_cases.
  cbn [root stderr trace].
  rewrite (proj1 (file_at_find _ _ _) Hfile), Hr1.
  destruct (startswith data PDF_SIGNATURE).
  - destruct Hok as [Hbad|Hne]; [discriminate|].
    rewrite decide_False by assumption. rewrite Hr2.
    eexists. split; [reflexivity|]. split; [reflexivity | exact Hview].
  - rewrite Hr2.
    eexists. split; [reflexivity|]. split; [reflexivity | exact Hview].
Qed.

(** X14 *)

(** X14. Converting a PDF onto itself fails: [main] returns 1, prints the
    message of [shutil.SameFileError] after [Conversion failed: ], and the
    tree is as it was. *)
Theorem main_same_file (prog arg1 arg2 : str) (p : path) (data : bytes) (w : world) :
  resolve arg1 = Some p ->
  resolve arg2 = Some p ->
  file_at w p = Some data ->
  startswith data PDF_SIGNATURE = true ->
  exists w',
    main [prog; arg1; arg2] w = (Return 1, w')
    /\ root w' = root w
    /\ stderr w'
       = stderr w ++ [lit "Conversion failed: " ++ same_file_message p p].
Proof.
  intros H1 H2 Hfile Hsig.
  rewrite (main_two_arguments _ _ _ _ _ _ H1 H2), convert_cases.
  cbn [root stderr trace].
  pose proof (proj1 (file_at_find _ _ _) Hfile) as Hfind. rewrite Hfind.
  rewrite (make_dirs_same (path_parent p) (root w)).
  - rewrite Hsig. rewrite decide_True by reflexivity.
    eexists. split; [reflexivity|]. split; reflexivity.
  - apply entry_in_parent. apply entry_in_file in Hfind. now rewrite Hfind.
Qed.

End RunProperties.

(** ** A final newline *)

Lemma splitlines_from_final_newline (n : nat) :
  forall s cur, (length s <= n)%nat -> s <> [] ->
    match last s with Some c => is_linebreak c = false | None => True end ->
    splitlines_from cur (s ++ [10%N]) = splitlines_from cur s.
Proof.
  induction n as [|n IH]; intros s cur Hlen Hne Hlast.
  - destruct s; [congruence | simpl in Hlen; lia].
  - destruct s as [|c rest]; [congruence|]. simpl in Hlen.
    assert (rest <> [] ->
            match last rest with Some c => is_linebreak c = false | None => True end)
      as Hlast'.
    { intros Hrest. destruct rest; [congruence | exact Hlast]. }
    cbn [app splitlines_from]. destruct (is_linebreak c) eqn:Hc.
    + destruct rest as [|c' rest']; [simpl in Hlast; congruence|].
      f_equal. cbn [app].
      destruct ((c =? 13) && (c' =? 10))%N eqn:Hcrlf.
      * assert (rest' <> []) as Hrest'.
        { intros ->. apply andb_prop in Hcrlf as [_ Hlf]. apply N.eqb_eq in Hlf.
          subst c'. simpl in Hlast. discriminate. }
        apply IH; [simpl in Hlen; lia | assumption|].
        destruct rest'; [congruence | exact (Hlast' ltac:(discriminate))].
      * change (c' :: rest' ++ [10%N]) with ((c' :: rest') ++ [10%N]).
        apply IH; [lia | discriminate | exact (Hlast' ltac:(discriminate))].
    + destruct rest as [|c' rest'].
      * simpl. destruct (cur ++ [c]) eqn:Hcur; [|reflexivity].
        destruct cur; discriminate.
      * apply IH; [lia | discriminate | exact (Hlast' ltac:(discriminate))].
Qed.

(** X15. A newline at the very end of the text adds no segment: a text that
    does not end with a line boundary and the same text followed by one
    line feed start [wrap_lines] in the same state, whatever the width. *)
Theorem wrap_lines_final_newline (text : str) (max_chars : Z) :
  match last text with Some c => is_linebreak c = false | None => True end ->
  wrap_lines (text ++ [10%N]) max_chars = wrap_lines text max_chars.
Proof.
  intros Hlast. unfold wrap_lines, source_lines, splitlines. f_equal.
  destruct text as [|c rest]; [reflexivity|].
  rewrite (splitlines_from_final_newline (length (c :: rest)));
    [reflexivity | lia | discriminate | assumption].
Qed.

Lemma wrap_lines_final_newline_witness :
  wrap_lines (lit "ab" ++ [10%N]) 100 = wrap_lines (lit "ab") 100.
Proof. apply (wrap_lines_final_newline (lit "ab") 100). reflexivity. Defined.

(** ** The further properties at concrete inputs *)

Lemma convert_only_writes_output_witness :
  file_at (snd (@convert Sample.runtime [lit "in.jsf"] [lit "out.pdf"]
                  (Sample.one_file [lit "in.jsf"] [x68; x69])))
    [lit "in.jsf"]
  = file_at (Sample.one_file [lit "in.jsf"] [x68; x69]) [lit "in.jsf"]
  /\ stderr (snd (@convert Sample.runtime [lit "in.jsf"] [lit "out.pdf"]
                    (Sample.one_file [lit "in.jsf"] [x68; x69])))
     = stderr (Sample.one_file [lit "in.jsf"] [x68; x69]).
Proof.
  apply (@convert_only_writes_output Sample.runtime [lit "in.jsf"] [lit "out.pdf"]
           [lit "in.jsf"] (Sample.one_file [lit "in.jsf"] [x68; x69])).
  discriminate.
Defined.

Lemma main_success_witness :
  exists w',
    @main Sample.runtime [lit "converter.py"; lit "/in.jsf"; lit "/out/in.pdf"]
      (Sample.one_file [lit "in.jsf"] [x68; x69])
    = (Return 0, w')
    /\ stderr w' = stderr (Sample.one_file [lit "in.jsf"] [x68; x69])
    /\ forall q,
         entry_at w' q
         = written (Sample.one_file [lit "in.jsf"] [x68; x69])
             [lit "out"; lit "in.pdf"]
             (if startswith [x68; x69] PDF_SIGNATURE then [x68; x69]
              else @pdf_bytes Sample.runtime
                     (render [lit "in.jsf"] [lit "out"; lit "in.pdf"]
                        (@decode_text Sample.runtime [x68; x69]))) q.
Proof.
  apply (@main_success Sample.runtime (lit "converter.py") (lit "/in.jsf")
           (lit "/out/in.pdf") [lit "in.jsf"] [lit "out"; lit "in.pdf"]
           [x68; x69] (Sample.one_file [lit "in.jsf"] [x68; x69])).
  - reflexivity.
  - reflexivity.
  - reflexivity.
  - split; [|discriminate].
    intros q Hq. destruct q as [|name q]; [reflexivity|].
    apply prefix_cons_iff in Hq as [-> Hq]. apply prefix_nil_inv in Hq as ->.
    reflexivity.
  - left. reflexivity.
Defined.

Lemma main_same_file_witness :
  exists w',
    @main Sample.runtime [lit "converter.py"; lit "/docs/a.pdf"; lit "/docs/a.pdf"]
      (Sample.one_file [lit "docs"; lit "a.pdf"] PDF_SIGNATURE)
    = (Return 1, w')
    /\ root w' = root (Sample.one_file [lit "docs"; lit "a.pdf"] PDF_SIGNATURE)
    /\ stderr w'
       = stderr (Sample.one_file [lit "docs"; lit "a.pdf"] PDF_SIGNATURE)
         ++ [lit "Conversion failed: "
             ++ @same_file_message Sample.runtime
                  [lit "docs"; lit "a.pdf"] [lit "docs"; lit "a.pdf"]].
Proof.
  apply (@main_same_file Sample.runtime (lit "converter.py") (lit "/docs/a.pdf")
           (lit "/docs/a.pdf") [lit "docs"; lit "a.pdf"] PDF_SIGNATURE
           (Sample.one_file [lit "docs"; lit "a.pdf"] PDF_SIGNATURE)).
  - reflexivity.
  - reflexivity.
  - reflexivity.
  - reflexivity.
Defined.

(** An input that is a directory is found, and then cannot be read. *)
Example convert_directory_input :
  fst (@convert Sample.runtime [lit "docs"] [lit "out.pdf"]
         (Sample.one_file [lit "docs"; lit "a.txt"] [x68; x69]))
  = Raise (IsADirectoryError (@os_error_message Sample.runtime EISDIR [lit "docs"])).
Proof. reflexivity. Qed.

(** An argument that does not resolve ends [main] by an exception. *)
Example main_unknown_user :
  fst (@main Sample.runtime [lit "converter.py"; lit "in.jsf"; lit "~nobody/out.pdf"]
         (Sample.one_file [lit "in.jsf"] [x68; x69]))
  = Raise (RuntimeError (lit "Could not determine home directory.")).
Proof. reflexivity. Qed.
